(** * Identity reconciliation service: the [/identify] handler

    A shallow embedding of [src/index.ts].  The Postgres table [Contact] is a
    list of rows in scan order together with the value of its [SERIAL]
    sequence and a logical clock standing for [NOW()].  The handler is an
    [async] function that awaits [pool.query] and may throw, hence a state
    and exception monad over the connection pool.  A pool carries the number
    of statements it will still execute before the connection is lost, so
    that the behaviour of the handler under a failing write can be stated.

    Scope of the model: request fields are strings or absent.  A statement
    that the table refuses is a statement that the pool rejects; what the
    table accepts of a new row is written down in [accepted].  The list
    order of the table stands for the scan order, with a rewritten row
    kept at its place.

    The repository also holds an earlier copy of the handler; it is
    embedded in [Module Legacy] and compared with [src/index.ts] at the
    end. *)

From Stdlib Require Import ZArith Lia.
From stdpp Require Import base option list sorting gmap sets strings.

Open Scope Z_scope.

(** ** Data model *)

Inductive LinkPrecedence := primary | secondary.

#[global] Instance LinkPrecedence_eq_dec : EqDecision LinkPrecedence.
Proof. solve_decision. Defined.

(** [interface Contact]; timestamps are milliseconds, [None] is SQL NULL. *)
Record Contact := mkContact {
  id : Z;
  phonenumber : option string;
  email : option string;
  linkedid : option Z;
  linkprecedence : LinkPrecedence;
  createdat : Z;
  updateat : Z;
  deletedat : option Z
}.

#[global] Instance Contact_eq_dec : EqDecision Contact.
Proof. solve_decision. Defined.

(** The table, the last value handed out by the [id] sequence, and the
    clock read by [NOW()]. *)
Record Db := mkDb {
  table : list Contact;
  serial : Z;
  clock : Z
}.

(** [outage = Some k]: the pool executes [k] more statements and rejects
    every later one; [None]: the pool never fails. *)
Record Pool := mkPool {
  db : Db;
  outage : option nat
}.

Definition connected (d : Db) : Pool := mkPool d None.

(** The body of a request: [{ email, phonenumber }]. *)
Record Request := mkRequest {
  req_email : option string;
  req_phonenumber : option string
}.

(** The [contact] object of a successful answer. *)
Record Consolidated := mkConsolidated {
  primaryContactId : Z;
  emails : list string;
  phoneNumbers : list string;
  secondaryContactIds : list Z
}.

(** What the client receives: [res.json(..)] or [res.status(500)]. *)
Inductive HttpResponse :=
| Json200 (c : Consolidated)
| Error500.

(** ** JavaScript and SQL primitives *)

(** Truthiness of a value that is a string, [null] or [undefined]. *)
Definition truthy (v : option string) : bool :=
  match v with
  | Some s => negb (bool_decide (s = EmptyString))
  | None => false
  end.

(** Truthiness of a value that is a number or [null]. *)
Definition truthy_num (v : option Z) : bool :=
  match v with
  | Some n => negb (n =? 0)
  | None => false
  end.

(** SQL [col = $n]: a comparison with NULL on either side selects nothing. *)
Definition sql_eq {A} `{EqDecision A} (col param : option A) : bool :=
  match col, param with
  | Some x, Some y => bool_decide (x = y)
  | _, _ => false
  end.

Definition is_null {A} (col : option A) : bool :=
  match col with None => true | Some _ => false end.

Definition is_primary (c : Contact) : bool :=
  bool_decide (linkprecedence c = primary).

Definition is_secondary (c : Contact) : bool :=
  bool_decide (linkprecedence c = secondary).

(** [[...new Set(xs)]]: the first occurrence of every element, in order. *)
Fixpoint set_spread {A} `{EqDecision A} (xs : list A) : list A :=
  match xs with
  | [] => []
  | x :: xs' => x :: filter (λ y, y ≠ x) (set_spread xs')
  end.

(** [m.set(k, v)] on a [Map]: a known key keeps its position and takes the
    new value, a new key goes last. *)
Fixpoint map_set (m : list (Z * Contact)) (k : Z) (v : Contact)
  : list (Z * Contact) :=
  match m with
  | [] => [(k, v)]
  | (k', v') :: m' =>
      if bool_decide (k' = k) then (k, v) :: m' else (k', v') :: map_set m' k v
  end.

Definition map_values (m : list (Z * Contact)) : list Contact := snd <$> m.

(** [xs.sort((a, b) => a.createdat - b.createdat)]: the sort is stable, so
    it is the insertion of every element before the first one that is not
    older. *)
Fixpoint sort_insert (c : Contact) (l : list Contact) : list Contact :=
  match l with
  | [] => [c]
  | d :: l' =>
      if createdat c <=? createdat d then c :: l else d :: sort_insert c l'
  end.

Definition sort_by_createdat (l : list Contact) : list Contact :=
  foldr sort_insert [] l.

(** ** The [async] monad *)

Inductive Exn := TypeError | QueryError.

Definition Async (A : Type) : Type := Pool → (Exn + A) * Pool.

#[global] Instance Async_ret : MRet Async := λ A a p, (inr a, p).

#[global] Instance Async_bind : MBind Async := λ A B f m p,
  match m p with
  | (inl e, p') => (inl e, p')
  | (inr a, p') => f a p'
  end.

Definition throw {A} (e : Exn) : Async A := λ p, (inl e, p).

(** [x.id] where [x] may be [undefined]. *)
Definition deref {A} (x : option A) : Async A :=
  match x with
  | Some a => mret a
  | None => throw TypeError
  end.

(** [await pool.query(..)]: the statement runs against the table unless the
    pool is out of order. *)
Definition pool_query {A} (stmt : Db → A * Db) : Async A := λ p,
  match outage p with
  | Some O => (inl QueryError, p)
  | Some (S k) => let (a, d) := stmt (db p) in (inr a, mkPool d (Some k))
  | None => let (a, d) := stmt (db p) in (inr a, mkPool d None)
  end.

(** ** Statements *)

Definition select (where_ : Contact → bool) (d : Db) : list Contact * Db :=
  (filter (λ c, where_ c) (table d), d).

(** An [UPDATE] rewrites the selected rows.  The model keeps a rewritten row
    at its place in the list; PostgreSQL does not fix where a later scan
    finds it. *)
Definition update (set : Z → Contact → Contact) (where_ : Contact → bool)
    (d : Db) : unit * Db :=
  (tt, mkDb ((λ c, if where_ c then set (clock d) c else c) <$> table d)
            (serial d) (clock d + 1)).

(** An [INSERT ... RETURNING *] that the table carries out; [accepted]
    below says when it does. *)
Definition insert (email_ phonenumber_ : option string) (linkedid_ : option Z)
    (linkprecedence_ : LinkPrecedence) (d : Db) : Contact * Db :=
  let row := mkContact (serial d + 1) phonenumber_ email_ linkedid_
               linkprecedence_ (clock d) (clock d) None in
  (row, mkDb (table d ++ [row]) (serial d + 1) (clock d + 1)).

(** [VARCHAR(n)]: a value of more than [n] characters is refused, and so
    is, as for every text value of PostgreSQL, one that holds the zero
    byte.  The length of the string in bytes bounds the number of its
    characters. *)
Definition fits (n : nat) (v : option string) : Prop :=
  match v with
  | Some s =>
      (String.length s ≤ n)%nat ∧ Ascii.zero ∉ String.list_ascii_of_string s
  | None => True
  end.

(** [phonenumber VARCHAR(15)], [email VARCHAR(255)] *)
Definition fits_columns (email_ phonenumber_ : option string) : Prop :=
  fits 255 email_ ∧ fits 15 phonenumber_.

(** The last value of the sequence behind [id SERIAL], an [int4]. *)
Definition int4_max : Z := 2147483647.

(** What [CREATE TABLE Contact] asks of a new row: the column widths, a
    next value of the sequence, [PRIMARY KEY] and [FOREIGN KEY (linkedid)].
    The [CHECK] on [linkprecedence] holds of every [LinkPrecedence]. *)
Definition accepted (email_ phonenumber_ : option string)
    (linkedid_ : option Z) (d : Db) : Prop :=
  fits_columns email_ phonenumber_
  ∧ serial d < int4_max
  ∧ (∀ c, c ∈ table d → id c ≠ serial d + 1)
  ∧ (∀ l, linkedid_ = Some l → ∃ p, p ∈ table d ∧ id p = l).

(** [WHERE (email = $1 OR phonenumber = $2) AND deletedat IS NULL] *)
Definition matchesEmailOrPhone (email_ phone : option string) (c : Contact)
  : bool :=
  (sql_eq (email c) email_ || sql_eq (phonenumber c) phone)
  && is_null (deletedat c).

(** [WHERE id = ANY($1::int[]) AND deletedat IS NULL] *)
Definition idAmong (ids : gset Z) (c : Contact) : bool :=
  bool_decide (id c ∈ ids) && is_null (deletedat c).

(** [WHERE (id = $1 OR linkedid = $1) AND deletedat IS NULL] *)
Definition linkedToPrimary (primaryId : Z) (c : Contact) : bool :=
  (bool_decide (id c = primaryId) || sql_eq (linkedid c) (Some primaryId))
  && is_null (deletedat c).

(** [SET linkedid = $1, linkprecedence = $2, updateat = NOW() WHERE id = $3] *)
Definition demoteStmt (id_ : Z) (linkedid_ : option Z)
    (linkprecedence_ : LinkPrecedence) : Db → unit * Db :=
  update
    (λ now c, mkContact (id c) (phonenumber c) (email c) linkedid_
                linkprecedence_ (createdat c) now (deletedat c))
    (λ c, bool_decide (id c = id_)).

(** [SET linkedid = $1, updateat = NOW() WHERE linkedid = $2] *)
Definition repointStmt (oldPrimaryId newPrimaryId : Z) : Db → unit * Db :=
  update
    (λ now c, mkContact (id c) (phonenumber c) (email c) (Some newPrimaryId)
                (linkprecedence c) (createdat c) now (deletedat c))
    (λ c, sql_eq (linkedid c) (Some oldPrimaryId)).

(** ** Helper functions of [index.ts] *)

Definition findContactsByEmailOrPhone (email_ phone : option string)
  : Async (list Contact) :=
  if negb (truthy email_) && negb (truthy phone) then mret []
  else pool_query (select (matchesEmailOrPhone email_ phone)).

Definition createContact (email_ phonenumber_ : option string)
    (linkedid_ : option Z) (linkprecedence_ : LinkPrecedence)
  : Async Contact :=
  pool_query (insert email_ phonenumber_ linkedid_ linkprecedence_).

Definition updateContact (id_ : Z) (linkedid_ : option Z)
    (linkprecedence_ : LinkPrecedence) : Async unit :=
  pool_query (demoteStmt id_ linkedid_ linkprecedence_).

Definition updateSecondaryLinks (oldPrimaryId newPrimaryId : Z)
  : Async unit :=
  pool_query (repointStmt oldPrimaryId newPrimaryId).

Definition getAllContactsLinkedToPrimary (primaryId : Z)
  : Async (list Contact) :=
  pool_query (select (linkedToPrimary primaryId)).

Definition getAllEmails (contacts : list Contact) : list string :=
  set_spread (omap email contacts).

Definition getAllPhones (contacts : list Contact) : list string :=
  set_spread (omap phonenumber contacts).

(** [contacts.find(..)!] carries no run-time check: reading [primary.id]
    throws when no primary is found. *)
Definition buildResponse (contacts : list Contact) : Exn + Consolidated :=
  let primary_ := snd <$> list_find (λ c, is_primary c) contacts in
  let secondaries := filter (λ c, is_secondary c) contacts in
  match primary_ with
  | None => inl TypeError
  | Some p =>
      inr (mkConsolidated (id p) (getAllEmails contacts)
             (getAllPhones contacts) (id <$> secondaries))
  end.

(** A synchronous call that may throw, inside an [async] body. *)
Definition call {A} (r : Exn + A) : Async A := λ p, (r, p).

(** ** The handler *)

(** Step 1: ids of the primaries the matched rows belong to. *)
Definition addPrimaryId (s : gset Z) (c : Contact) : gset Z :=
  if is_primary c then s ∪ {[ id c ]}
  else if truthy_num (linkedid c) then s ∪ {[ default 0 (linkedid c) ]}
  else s.

Definition primaryIdSet (existingContacts : list Contact) : gset Z :=
  foldl addPrimaryId ∅ existingContacts.

Definition fetchPrimaries (ids : gset Z) : Async (list Contact) :=
  if bool_decide (0 < size ids)%nat then
    pool_query (select (idAmong ids))
  else mret [].

Definition allContactsOf (existingContacts primaryContactsFromDb : list Contact)
  : list Contact :=
  map_values (foldl (λ m c, map_set m (id c) c) []
                (existingContacts ++ primaryContactsFromDb)).

(** Step 2: the primaries among them, oldest first. *)
Definition allPrimaryContactsOf (allContacts : list Contact) : list Contact :=
  sort_by_createdat (filter (λ c, is_primary c) allContacts).

(** Step 3: the loop [for (let i = 1; i < allPrimaryContacts.length; i++)]
    over the elements from index 1 on. *)
Fixpoint demoteLoop (ultimatePrimary : option Contact)
    (toDemote : list Contact) : Async unit :=
  match toDemote with
  | [] => mret tt
  | primaryToDemote :: rest =>
      u ← deref ultimatePrimary;
      _ ← updateContact (id primaryToDemote) (Some (id u)) secondary;
      _ ← updateSecondaryLinks (id primaryToDemote) (id u);
      demoteLoop ultimatePrimary rest
  end.

Definition isNew (submitted : option string) (known : list string) : bool :=
  truthy submitted
  && negb (bool_decide (default EmptyString submitted ∈ known)).

(** The body of the [try] block. *)
Definition identify (req : Request) : Async Consolidated :=
  let email_ := req_email req in
  let phonenumber_ := req_phonenumber req in
  existingContacts ← findContactsByEmailOrPhone email_ phonenumber_;
  if bool_decide (length existingContacts = 0%nat) then
    newContact ← createContact email_ phonenumber_ None primary;
    mret (mkConsolidated (id newContact)
            (omap (λ e, if truthy e then e else None) [email newContact])
            (omap (λ p, if truthy p then p else None)
               [phonenumber newContact])
            [])
  else
    primaryContactsFromDb ← fetchPrimaries (primaryIdSet existingContacts);
    let allContacts := allContactsOf existingContacts primaryContactsFromDb in
    let allPrimaryContacts := allPrimaryContactsOf allContacts in
    let ultimatePrimary := head allPrimaryContacts in
    _ ← (if bool_decide (1 < length allPrimaryContacts)%nat
         then demoteLoop ultimatePrimary (tail allPrimaryContacts)
         else mret tt);
    let allEmails := getAllEmails allContacts in
    let allPhones := getAllPhones allContacts in
    let isNewEmail := isNew email_ allEmails in
    let isNewPhone := isNew phonenumber_ allPhones in
    _ ← (if isNewEmail || isNewPhone then
           u ← deref ultimatePrimary;
           _ ← createContact (if isNewEmail then email_ else None)
                 (if isNewPhone then phonenumber_ else None)
                 (Some (id u)) secondary;
           mret tt
         else mret tt);
    u ← deref ultimatePrimary;
    finalContacts ← getAllContactsLinkedToPrimary (id u);
    call (buildResponse finalContacts).

(** [app.post('/identify', ..)]: the [catch] turns every exception into a
    500 answer. *)
Definition handler (req : Request) (p : Pool) : HttpResponse * Pool :=
  match identify req p with
  | (inr c, p') => (Json200 c, p')
  | (inl _, p') => (Error500, p')
  end.


(** ** The older copy of the handler

    The repository holds a second, earlier copy of [index.ts].  Its SQL
    names the columns in camel case without quotes; PostgreSQL folds such
    names to lower case, so its table has the columns [phonenumber],
    [linkedid], [linkprecedence], [createdat], [updatedat] and [deletedat],
    and its statements are those of [src/index.ts], except that two
    [WHERE] clauses lack parentheses, so that [AND] binds tighter than [OR].
    [pg] keys every row it returns by the column names.  The JavaScript of
    the older copy reads [c.linkPrecedence] and [c.phoneNumber]: a row has
    no property of these names, and the read gives [undefined].  The
    request body carries [phoneNumber], which [req_phonenumber] stands
    for. *)
Module Legacy.

(** What a property read gives. *)
Inductive Js (A : Type) :=
| js_undefined
| js_null
| js_value (a : A).
Arguments js_undefined {A}.
Arguments js_null {A}.
Arguments js_value {A} a.

#[global] Instance Js_eq_dec {A} `{EqDecision A} : EqDecision (Js A).
Proof. solve_decision. Defined.

(** [c.linkPrecedence] *)
Definition linkPrecedence (c : Contact) : Js LinkPrecedence := js_undefined.

(** [c.phoneNumber] *)
Definition phoneNumber (c : Contact) : Js string := js_undefined.

Definition js_truthy (v : Js string) : bool :=
  match v with
  | js_value s => negb (bool_decide (s = EmptyString))
  | _ => false
  end.

(** [c.linkPrecedence === 'primary'] *)
Definition is_primary (c : Contact) : bool :=
  bool_decide (linkPrecedence c = js_value primary).

Definition is_secondary (c : Contact) : bool :=
  bool_decide (linkPrecedence c = js_value secondary).

(** The [contact] object of an answer; [phoneNumbers] holds what
    [c.phoneNumber] gave. *)
Record Consolidated := mkConsolidated {
  primaryContactId : Z;
  emails : list string;
  phoneNumbers : list (Js string);
  secondaryContactIds : list Z
}.

Inductive HttpResponse :=
| Json200 (c : Consolidated)
| Error500.

(** [WHERE id = $1 OR linkedId = $1 AND deletedAt IS NULL] *)
Definition linkedToPrimary (primaryId : Z) (c : Contact) : bool :=
  bool_decide (id c = primaryId)
  || (sql_eq (linkedid c) (Some primaryId) && is_null (deletedat c)).

(** [WHERE linkedId = ANY($1::int[]) OR id = ANY($1::int[])
     AND deletedAt IS NULL] *)
Definition linkedToAny (primaryIds : list Z) (c : Contact) : bool :=
  match linkedid c with
  | Some l => bool_decide (l ∈ primaryIds)
  | None => false
  end
  || (bool_decide (id c ∈ primaryIds) && is_null (deletedat c)).

Definition getAllContactsLinkedToPrimary (primaryId : Z)
  : Async (list Contact) :=
  pool_query (select (linkedToPrimary primaryId)).

Definition getAllLinkedContacts (contacts : list Contact)
  : Async (list Contact) :=
  let primaryIds := id <$> filter (λ c, is_primary c) contacts in
  if bool_decide (length primaryIds = 0%nat) then mret contacts
  else pool_query (select (linkedToAny primaryIds)).

(** [contacts.map(c => c.phoneNumber).filter(p => p !== null)] *)
Definition getAllPhones (contacts : list Contact) : list (Js string) :=
  set_spread (filter (λ p, p ≠ js_null) (phoneNumber <$> contacts)).

Definition buildResponse (contacts : list Contact) : Exn + Consolidated :=
  let primary_ := snd <$> list_find (λ c, is_primary c) contacts in
  let secondaries := filter (λ c, is_secondary c) contacts in
  match primary_ with
  | None => inl TypeError
  | Some p =>
      inr (mkConsolidated (id p) (getAllEmails contacts)
             (getAllPhones contacts) (id <$> secondaries))
  end.

(** [phoneNumber && !allPhones.includes(phoneNumber)] *)
Definition isNewPhone (submitted : option string) (known : list (Js string))
  : bool :=
  truthy submitted
  && negb (bool_decide (js_value (default EmptyString submitted) ∈ known)).

Definition identify (req : Request) : Async Consolidated :=
  let email_ := req_email req in
  let phoneNumber_ := req_phonenumber req in
  existingContacts ← findContactsByEmailOrPhone email_ phoneNumber_;
  if bool_decide (length existingContacts = 0%nat) then
    newContact ← createContact email_ phoneNumber_ None primary;
    mret (mkConsolidated (id newContact)
            (omap (λ e, if truthy e then e else None) [email newContact])
            (filter (λ p, js_truthy p) [phoneNumber newContact])
            [])
  else
    let primaryContacts := filter (λ c, is_primary c) existingContacts in
    allLinkedContacts ← getAllLinkedContacts existingContacts;
    let sortedPrimaries := sort_by_createdat primaryContacts in
    let ultimatePrimary := head sortedPrimaries in
    _ ← (if bool_decide (1 < length sortedPrimaries)%nat
         then demoteLoop ultimatePrimary (tail sortedPrimaries)
         else mret tt);
    let allEmails := getAllEmails allLinkedContacts in
    let allPhones := getAllPhones allLinkedContacts in
    let isNewEmail := isNew email_ allEmails in
    let isNewPhone_ := isNewPhone phoneNumber_ allPhones in
    _ ← (if isNewEmail || isNewPhone_ then
           u ← deref ultimatePrimary;
           _ ← createContact (if isNewEmail then email_ else None)
                 (if isNewPhone_ then phoneNumber_ else None)
                 (Some (id u)) secondary;
           mret tt
         else mret tt);
    u ← deref ultimatePrimary;
    finalContacts ← getAllContactsLinkedToPrimary (id u);
    call (buildResponse finalContacts).

Definition handler (req : Request) (p : Pool) : HttpResponse * Pool :=
  match identify req p with
  | (inr c, p') => (Json200 c, p')
  | (inl _, p') => (Error500, p')
  end.

End Legacy.

(** ** The handler's locals as functions of the store *)

Definition existingContactsIn (req : Request) (d : Db) : list Contact :=
  if negb (truthy (req_email req)) && negb (truthy (req_phonenumber req))
  then []
  else filter (λ c, matchesEmailOrPhone (req_email req) (req_phonenumber req) c)
         (table d).

Definition primaryContactsFromDbIn (req : Request) (d : Db) : list Contact :=
  let ids := primaryIdSet (existingContactsIn req d) in
  if bool_decide (0 < size ids)%nat
  then filter (λ c, idAmong ids c) (table d) else [].

Definition allContactsIn (req : Request) (d : Db) : list Contact :=
  allContactsOf (existingContactsIn req d) (primaryContactsFromDbIn req d).

Definition allPrimaryContactsIn (req : Request) (d : Db) : list Contact :=
  allPrimaryContactsOf (allContactsIn req d).

Definition isNewEmailIn (req : Request) (d : Db) : bool :=
  isNew (req_email req) (getAllEmails (allContactsIn req d)).

Definition isNewPhoneIn (req : Request) (d : Db) : bool :=
  isNew (req_phonenumber req) (getAllPhones (allContactsIn req d)).

(** ** The writes of a request, in the order the handler issues them *)

Definition demotionWrites (u : Z) (losers : list Contact) : list (Db → Db) :=
  losers ≫= λ p,
    [ λ d, (demoteStmt (id p) (Some u) secondary d).2;
      λ d, (repointStmt (id p) u d).2 ].

Definition insertWrites (req : Request) (d : Db) (u : Z) : list (Db → Db) :=
  if isNewEmailIn req d || isNewPhoneIn req d then
    [ λ d', (insert (if isNewEmailIn req d then req_email req else None)
               (if isNewPhoneIn req d then req_phonenumber req else None)
               (Some u) secondary d').2 ]
  else [].

Definition planWrites (req : Request) (d : Db) (u : Z)
    (losers : list Contact) : list (Db → Db) :=
  demotionWrites u losers ++ insertWrites req d u.

Definition apply_writes (ws : list (Db → Db)) (d : Db) : Db :=
  foldl (λ d' w, w d') d ws.

(** ** Constraints of the schema and invariants of the data model *)

(** [id SERIAL PRIMARY KEY] *)
Definition primary_key (d : Db) : Prop :=
  NoDup (id <$> table d) ∧ 0 ≤ serial d
  ∧ ∀ c, c ∈ table d → 0 < id c ≤ serial d.

(** [FOREIGN KEY (linkedid) REFERENCES Contact(id)] *)
Definition foreign_key (d : Db) : Prop :=
  ∀ c l, c ∈ table d → linkedid c = Some l → ∃ p, p ∈ table d ∧ id p = l.

(** No [linkedid] refers to a secondary. *)
Definition no_chain (d : Db) : Prop :=
  ∀ c p, c ∈ table d → p ∈ table d →
    linkedid c = Some (id p) → linkprecedence p = primary.

(** A [linkedid] is present only on secondaries ... *)
Definition primaries_unlinked (d : Db) : Prop :=
  ∀ c, c ∈ table d → linkprecedence c = primary → linkedid c = None.

(** ... and on every secondary. *)
Definition secondaries_linked (d : Db) : Prop :=
  ∀ c, c ∈ table d → linkprecedence c = secondary →
    ∃ l, linkedid c = Some l ∧ l ≠ 0.

(** No live row is linked to a soft-deleted one. *)
Definition live_primaries (d : Db) : Prop :=
  ∀ c p, c ∈ table d → p ∈ table d → deletedat c = None →
    linkedid c = Some (id p) → deletedat p = None.

(** The constraints and invariants together. *)
Definition store_ok (d : Db) : Prop :=
  primary_key d ∧ foreign_key d ∧ no_chain d
  ∧ primaries_unlinked d ∧ secondaries_linked d.

(** No code of the repository sets [deletedat]; the queries only read it.
    An operator soft-deletes a contact with
    [UPDATE Contact SET deletedat = NOW() WHERE id = $1]. *)
Definition softDelete (id_ : Z) (d : Db) : Db :=
  mkDb ((λ c, if bool_decide (id c = id_)
              then mkContact (id c) (phonenumber c) (email c) (linkedid c)
                     (linkprecedence c) (createdat c) (updateat c)
                     (Some (clock d))
              else c) <$> table d)
       (serial d) (clock d + 1).

(** What happens to the table: a request served by a healthy pool, or a
    soft delete. *)
Inductive Event :=
| Identify (req : Request)
| SoftDelete (id_ : Z).

Definition step (d : Db) (ev : Event) : Db :=
  match ev with
  | Identify req => db (handler req (connected d)).2
  | SoftDelete id_ => softDelete id_ d
  end.

(** The table after a history of events. *)
Definition serve (history : list Event) (d : Db) : Db := foldl step d history.

(** The non-deleted primaries that a matched row is, or is linked to. *)
Definition involved (req : Request) (d : Db) (p : Contact) : Prop :=
  p ∈ table d ∧ deletedat p = None ∧ linkprecedence p = primary ∧
  ∃ c, c ∈ existingContactsIn req d ∧
       (c = p ∨ (linkprecedence c = secondary ∧ linkedid c = Some (id p))).

(** Every submitted (non-empty) value is held by some live row. *)
Definition carried (req : Request) (d : Db) : Prop :=
  (truthy (req_email req) = true →
   ∃ c, c ∈ table d ∧ deletedat c = None ∧ email c = req_email req)
  ∧ (truthy (req_phonenumber req) = true →
     ∃ c, c ∈ table d ∧ deletedat c = None
          ∧ phonenumber c = req_phonenumber req).

(** The submitted pair fully matches the single cluster of the primary
    [u]: the matched rows resolve to [u] and to no other primary, and both
    values are already held. *)
Definition fully_matches (req : Request) (d : Db) (u : Contact) : Prop :=
  involved req d u ∧ (∀ p, involved req d p → p = u) ∧ carried req d.

(** Following the claim's words: the complete membership of the candidate
    clusters, that is each candidate primary and every contact that is not
    deleted and whose [linkedid] is the id of that primary. *)
Definition candidate_member (req : Request) (d : Db) (c : Contact) : Prop :=
  c ∈ table d
  ∧ ∃ p, involved req d p
         ∧ (c = p ∨ (deletedat c = None ∧ linkedid c = Some (id p))).

(** The submitted email is present, and absent from the union of the
    emails over that membership. *)
Definition email_is_new (req : Request) (d : Db) : Prop :=
  ∃ e, req_email req = Some e ∧ e ≠ EmptyString
       ∧ ∀ c, candidate_member req d c → email c ≠ Some e.

Definition phone_is_new (req : Request) (d : Db) : Prop :=
  ∃ ph, req_phonenumber req = Some ph ∧ ph ≠ EmptyString
        ∧ ∀ c, candidate_member req d c → phonenumber c ≠ Some ph.

(** The membership of the cluster of a primary id: the row itself and the
    rows linked to it, deleted ones excluded. *)
Definition clusterMembers (primaryId : Z) (d : Db) : list Contact :=
  filter (λ c, linkedToPrimary primaryId c) (table d).

(** The table without its soft-deleted rows. *)
Definition purge (d : Db) : Db :=
  mkDb (filter (λ c, is_null (deletedat c)) (table d)) (serial d) (clock d).

(** What the demotion of the primaries [ids] under [u] does to a row [c],
    giving [c']: a demoted row and a row linked to one end up linked to
    [u]; nothing else of the graph changes. *)
Definition relinked (u : Z) (ids : list Z) (c c' : Contact) : Prop :=
  id c' = id c ∧ email c' = email c ∧ phonenumber c' = phonenumber c
  ∧ createdat c' = createdat c ∧ deletedat c' = deletedat c
  ∧ if decide (id c ∈ ids)
    then linkedid c' = Some u ∧ linkprecedence c' = secondary
    else linkprecedence c' = linkprecedence c
         ∧ linkedid c' = match linkedid c with
                         | Some l => if decide (l ∈ ids) then Some u else Some l
                         | None => None
                         end.

(** The row that step 4 inserts under the primary [u] at time [now]. *)
Definition newSecondary (req : Request) (d : Db) (u now : Z) : Contact :=
  mkContact (serial d + 1)
    (if isNewPhoneIn req d then req_phonenumber req else None)
    (if isNewEmailIn req d then req_email req else None)
    (Some u) secondary now now None.

(** The order of the comparator [a.createdat - b.createdat]. *)
Definition older_or_same (a b : Contact) : Prop := createdat a ≤ createdat b.

(** The budget of a pool after one more statement. *)
Definition spend (o : option nat) : option nat :=
  match o with Some k => Some (pred k) | None => None end.

(** ** The helper that is no longer called

    [getAllLinkedContacts] of [src/index.ts], kept in the file "for
    completeness", with its parentheses corrected. *)

(** [WHERE (linkedid = ANY($1::int[]) OR id = ANY($1::int[]))
     AND deletedat IS NULL] *)
Definition linkedToAny (primaryIds : list Z) (c : Contact) : bool :=
  (match linkedid c with
   | Some l => bool_decide (l ∈ primaryIds)
   | None => false
   end
   || bool_decide (id c ∈ primaryIds))
  && is_null (deletedat c).

Definition getAllLinkedContacts (contacts : list Contact)
  : Async (list Contact) :=
  let primaryIds := id <$> filter (λ c, is_primary c) contacts in
  if bool_decide (length primaryIds = 0%nat) then mret contacts
  else pool_query (select (linkedToAny primaryIds)).

(** ** What a statement may do to the table *)

(** A row [c] and what became of it, [c']: the statements of the handler
    set [linkedid], [linkprecedence] and [updateat] only, and never make a
    secondary a primary. *)
Definition evolves (c c' : Contact) : Prop :=
  id c' = id c ∧ email c' = email c ∧ phonenumber c' = phonenumber c
  ∧ createdat c' = createdat c ∧ deletedat c' = deletedat c
  ∧ (linkprecedence c = secondary → linkprecedence c' = secondary).

(** The table [d'] holds, in some order, the rows of [d], each evolved,
    and at most [n] new rows. *)
Definition grown (n : nat) (d d' : Db) : Prop :=
  ∃ rows added,
    table d' ≡ₚ rows ++ added ∧ Forall2 evolves (table d) rows
    ∧ (length added ≤ n)%nat.

(** Whatever the pool does, the computation takes a table to one related
    to it by [R]. *)
Definition ensures {A} (R : Db → Db → Prop) (m : Async A) : Prop :=
  ∀ p, R (db p) (db (m p).2).

(** ** Sample stores and requests *)

Definition no_contacts : Db := mkDb [] 0 1000.

(** Two separate people, the second with a secondary of its own. *)
Definition doc : Contact :=
  mkContact 1 None (Some "a@x.com"%string) None primary 1000 1000 None.
Definition marty : Contact :=
  mkContact 2 (Some "222"%string) None None primary 1001 1001 None.
Definition marty_alias : Contact :=
  mkContact 3 None (Some "m@x.com"%string) (Some 2) secondary 1002 1002 None.
Definition two_clusters : Db := mkDb [doc; marty; marty_alias] 3 1003.

Definition two_clusters_history : list Event :=
  [ Identify (mkRequest (Some "a@x.com"%string) None);
    Identify (mkRequest None (Some "222"%string));
    Identify (mkRequest (Some "m@x.com"%string) (Some "222"%string)) ].

(** The request that links the two people. *)
Definition link_request : Request :=
  mkRequest (Some "a@x.com"%string) (Some "222"%string).

(** A known email with a phone number nobody has used. *)
Definition new_phone_request : Request :=
  mkRequest (Some "a@x.com"%string) (Some "999"%string).

Definition email_request : Request := mkRequest (Some "a@x.com"%string) None.

(** The email of a secondary only. *)
Definition alias_request : Request := mkRequest (Some "m@x.com"%string) None.

(** A secondary whose primary was soft-deleted. *)
Definition retired : Contact :=
  mkContact 1 (Some "111"%string) (Some "old@x.com"%string) None primary
    1000 1000 (Some 1002).
Definition orphan : Contact :=
  mkContact 2 None (Some "a@x.com"%string) (Some 1) secondary 1001 1001 None.
Definition orphaned_cluster : Db := mkDb [retired; orphan] 2 1003.

Definition orphaned_cluster_history : list Event :=
  [ Identify (mkRequest (Some "old@x.com"%string) (Some "111"%string));
    Identify (mkRequest (Some "a@x.com"%string) (Some "111"%string));
    SoftDelete 1 ].

(** A primary whose secondary was soft-deleted. *)
Definition dropped_alias : Contact :=
  mkContact 2 (Some "222"%string) None (Some 1) secondary 1001 1001
    (Some 1002).
Definition shrunk_cluster : Db := mkDb [doc; dropped_alias] 2 1003.

Definition shrunk_cluster_history : list Event :=
  [ Identify (mkRequest (Some "a@x.com"%string) None);
    Identify (mkRequest (Some "a@x.com"%string) (Some "222"%string));
    SoftDelete 2 ].

(** What a merge leaves when the pool is lost between the demotion of a
    primary and the relinking of its secondaries. *)
Definition demoted_marty : Contact :=
  mkContact 2 (Some "222"%string) None (Some 1) secondary 1001 1003 None.
Definition chained_cluster : Db :=
  mkDb [doc; demoted_marty; marty_alias] 3 1004.

(** Requests without content. *)
Definition empty_request : Request := mkRequest None None.
Definition blank_request : Request :=
  mkRequest (Some EmptyString) (Some EmptyString).

(** An empty email next to a phone number. *)
Definition blank_email_request : Request :=
  mkRequest (Some EmptyString) (Some "123"%string).

(** * Properties *)

(** ** Running the monad *)

Lemma bind_inr {A B} (m : Async A) (k : A → Async B) p a p' :
  m p = (inr a, p') → (m ≫= k) p = k a p'.
Proof. unfold mbind, Async_bind. by intros ->. Qed.

Lemma bind_inl {A B} (m : Async A) (k : A → Async B) p e p' :
  m p = (inl e, p') → (m ≫= k) p = (inl e, p').
Proof. unfold mbind, Async_bind. by intros ->. Qed.

Lemma pool_query_ok {A} (stmt : Db → A * Db) d o :
  o ≠ Some 0%nat →
  pool_query stmt (mkPool d o) = (inr (stmt d).1, mkPool (stmt d).2 (spend o)).
Proof.
  intros Ho. unfold pool_query. simpl.
  destruct o as [[|k]|]; [done| |]; by destruct (stmt d).
Qed.

Lemma pool_query_down {A} (stmt : Db → A * Db) d :
  pool_query stmt (mkPool d (Some 0%nat)) = (inl QueryError, mkPool d (Some 0%nat)).
Proof. done. Qed.

Lemma find_run req d o :
  o ≠ Some 0%nat →
  findContactsByEmailOrPhone (req_email req) (req_phonenumber req) (mkPool d o)
  = (inr (existingContactsIn req d),
     mkPool d (if negb (truthy (req_email req))
                  && negb (truthy (req_phonenumber req))
               then o else spend o)).
Proof.
  intros Ho. unfold findContactsByEmailOrPhone, existingContactsIn.
  destruct (negb (truthy (req_email req)) && negb (truthy (req_phonenumber req)));
    [done|].
  by rewrite pool_query_ok.
Qed.

Lemma fetch_run req d o :
  o ≠ Some 0%nat →
  fetchPrimaries (primaryIdSet (existingContactsIn req d)) (mkPool d o)
  = (inr (primaryContactsFromDbIn req d),
     mkPool d (if bool_decide
                    (0 < size (primaryIdSet (existingContactsIn req d)))%nat
               then spend o else o)).
Proof.
  intros Ho. unfold fetchPrimaries, primaryContactsFromDbIn. simpl.
  case_bool_decide; [|done].
  by rewrite pool_query_ok.
Qed.

Lemma apply_writes_app ws1 ws2 d :
  apply_writes (ws1 ++ ws2) d = apply_writes ws2 (apply_writes ws1 d).
Proof. apply foldl_app. Qed.

Lemma demotionWrites_cons u p losers :
  demotionWrites u (p :: losers)
  = (λ d, (demoteStmt (id p) (Some u) secondary d).2)
    :: (λ d, (repointStmt (id p) u d).2) :: demotionWrites u losers.
Proof. done. Qed.

Lemma length_demotionWrites u losers :
  length (demotionWrites u losers) = (2 * length losers)%nat.
Proof. induction losers as [|p l IH]; [done|]. rewrite demotionWrites_cons. simpl. lia. Qed.

(** The loop under a pool that executes [k] more statements: it stops at
    the first statement the pool rejects, and what ran before stays. *)
Lemma demoteLoop_run u losers d o :
  demoteLoop (Some u) losers (mkPool d o) =
  match o with
  | Some k =>
      if decide (k < 2 * length losers)%nat then
        (inl QueryError,
         mkPool (apply_writes (take k (demotionWrites (id u) losers)) d)
                (Some 0%nat))
      else
        (inr tt,
         mkPool (apply_writes (demotionWrites (id u) losers) d)
                (Some (k - 2 * length losers)%nat))
  | None =>
      (inr tt, mkPool (apply_writes (demotionWrites (id u) losers) d) None)
  end.
Proof.
  revert d o. induction losers as [|p l IH]; intros d o.
  - destruct o as [k|]; [|done].
    rewrite decide_False by (simpl; lia).
    unfold demoteLoop, mret, Async_ret. simpl length. by rewrite Nat.sub_0_r.
  - rewrite demotionWrites_cons.
    change (demoteLoop (Some u) (p :: l)) with
      (u0 ← deref (Some u);
       _ ← updateContact (id p) (Some (id u0)) secondary;
       _ ← updateSecondaryLinks (id p) (id u0);
       demoteLoop (Some u) l).
    erewrite bind_inr by reflexivity.
    destruct o as [[|[|k]]|].
    + erewrite bind_inl by apply pool_query_down.
      by rewrite decide_True by (simpl; lia).
    + unfold updateContact. erewrite bind_inr by (by apply pool_query_ok).
      unfold updateSecondaryLinks. erewrite bind_inl by apply pool_query_down.
      by rewrite decide_True by (simpl; lia).
    + unfold updateContact. erewrite bind_inr by (by apply pool_query_ok).
      unfold updateSecondaryLinks. erewrite bind_inr by (by apply pool_query_ok).
      simpl spend. rewrite IH. simpl length.
      destruct (decide (k < 2 * length l)%nat).
      * by rewrite decide_True by lia.
      * rewrite decide_False by lia.
        do 3 f_equal. lia.
    + unfold updateContact. erewrite bind_inr by (by apply pool_query_ok).
      unfold updateSecondaryLinks. erewrite bind_inr by (by apply pool_query_ok).
      simpl spend. by rewrite IH.
Qed.

(** The handler under a pool that never fails, branch by branch. *)
Lemma identify_connected req d :
  identify req (connected d) =
  if bool_decide (length (existingContactsIn req d) = 0%nat) then
    (inr (mkConsolidated (serial d + 1)
            (omap (λ e, if truthy e then e else None) [req_email req])
            (omap (λ p, if truthy p then p else None) [req_phonenumber req])
            []),
     connected (insert (req_email req) (req_phonenumber req) None primary d).2)
  else
    match allPrimaryContactsIn req d with
    | [] => (inl TypeError, connected d)
    | u :: losers =>
        let d' := apply_writes (planWrites req d (id u) losers) d in
        (buildResponse (clusterMembers (id u) d'), connected d')
    end.
Proof.
  unfold identify, connected.
  erewrite bind_inr by (by apply find_run).
  replace (if negb (truthy (req_email req)) && negb (truthy (req_phonenumber req))
           then None else spend None) with (@None nat) by (by destruct (_ && _)).
  case_bool_decide as Hex.
  { unfold createContact. erewrite bind_inr by (by apply pool_query_ok). done. }
  erewrite bind_inr by (by apply fetch_run).
  replace (if bool_decide (0 < size (primaryIdSet (existingContactsIn req d)))%nat
           then spend None else None) with (@None nat) by (by case_bool_decide).
  fold (allContactsIn req d). fold (allPrimaryContactsIn req d).
  fold (isNewEmailIn req d). fold (isNewPhoneIn req d).
  destruct (allPrimaryContactsIn req d) as [|u losers] eqn:Hprim.
  - simpl head. simpl tail. simpl length. cbv zeta.
    rewrite (bool_decide_false (1 < 0)%nat) by lia.
    erewrite bind_inr by reflexivity.
    destruct (isNewEmailIn req d || isNewPhoneIn req d).
    + erewrite bind_inl; [done|]. by erewrite bind_inl.
    + erewrite bind_inr by reflexivity. by erewrite bind_inl.
  - simpl head. simpl tail. simpl length. cbv zeta.
    unfold planWrites, insertWrites. rewrite apply_writes_app.
    set (d1 := apply_writes (demotionWrites (id u) losers) d).
    assert ((if bool_decide (1 < S (length losers))%nat
             then demoteLoop (Some u) losers else mret tt) (mkPool d None)
            = (inr tt, mkPool d1 None)) as Hloop.
    { case_bool_decide.
      - by rewrite demoteLoop_run.
      - destruct losers; [done|simpl in *; lia]. }
    erewrite bind_inr by apply Hloop.
    destruct (isNewEmailIn req d || isNewPhoneIn req d).
    + erewrite bind_inr.
      2:{ erewrite bind_inr by reflexivity. unfold createContact.
          erewrite bind_inr by (by apply pool_query_ok). reflexivity. }
      erewrite bind_inr by reflexivity.
      unfold getAllContactsLinkedToPrimary.
      erewrite bind_inr by (by apply pool_query_ok). done.
    + erewrite bind_inr by reflexivity.
      erewrite bind_inr by reflexivity.
      unfold getAllContactsLinkedToPrimary.
      erewrite bind_inr by (by apply pool_query_ok). done.
Qed.

(** ** Sets, maps and sorting *)

Lemma elem_of_set_spread {A} `{EqDecision A} (xs : list A) x :
  x ∈ set_spread xs ↔ x ∈ xs.
Proof.
  induction xs as [|y xs IH]; [done|]. simpl.
  rewrite !elem_of_cons, list_elem_of_filter, IH.
  destruct (decide (x = y)); tauto.
Qed.

Lemma NoDup_set_spread {A} `{EqDecision A} (xs : list A) :
  NoDup (set_spread xs).
Proof.
  induction xs as [|y xs IH]; simpl; [constructor|].
  constructor.
  - rewrite list_elem_of_filter. tauto.
  - by apply NoDup_filter.
Qed.

Lemma map_set_keys m k v :
  fst <$> map_set m k v
  = if bool_decide (k ∈ fst <$> m) then fst <$> m else (fst <$> m) ++ [k].
Proof.
  induction m as [|[k' v'] m IH]; [done|]. csimpl.
  destruct (decide (k' = k)) as [->|Hk].
  - rewrite !bool_decide_true; [done|by left|done].
  - rewrite (bool_decide_false (k' = k)) by done. csimpl. rewrite IH.
    destruct (decide (k ∈ fst <$> m)) as [Hin|Hin].
    + rewrite !bool_decide_true; [done|by right|done].
    + rewrite !bool_decide_false; [done| |done].
      rewrite elem_of_cons. intros [?|?]; congruence.
Qed.

Lemma map_set_elem_of m k v x :
  x ∈ map_set m k v → x = (k, v) ∨ x ∈ m.
Proof.
  induction m as [|[k' v'] m IH]; simpl.
  - rewrite list_elem_of_singleton. by left.
  - case_bool_decide; rewrite !elem_of_cons; intros [->|Hx]; auto.
    destruct (IH Hx); auto.
Qed.

Lemma map_set_NoDup m k v :
  NoDup (fst <$> m) → NoDup (fst <$> map_set m k v).
Proof.
  intros Hm. rewrite map_set_keys. case_bool_decide as Hk; [done|].
  apply NoDup_app. split_and!; [done| |apply NoDup_singleton].
  intros x Hx ->%list_elem_of_singleton. done.
Qed.

Lemma map_set_key_elem_of m k v k' :
  k' ∈ fst <$> map_set m k v ↔ k' = k ∨ k' ∈ fst <$> m.
Proof.
  rewrite map_set_keys. case_bool_decide as Hk.
  - split; [by right|]. by intros [->|?].
  - rewrite elem_of_app, list_elem_of_singleton. tauto.
Qed.

(** The rows gathered in the map: one per id, each taken from the rows
    that were put in, and every id that was put in is there. *)
Lemma allContacts_fold l m :
  NoDup (fst <$> m) →
  let m' := foldl (λ m c, map_set m (id c) c) m l in
  NoDup (fst <$> m')
  ∧ (∀ x, x ∈ m' → x ∈ m ∨ (x.1 = id x.2 ∧ x.2 ∈ l))
  ∧ (∀ k, (k ∈ fst <$> m ∨ k ∈ id <$> l) → k ∈ fst <$> m').
Proof.
  revert m. induction l as [|c l IH]; intros m Hm; csimpl.
  - split_and!; [done|by left|]. intros k [?|?%elem_of_nil]; done.
  - destruct (IH (map_set m (id c) c) (map_set_NoDup _ _ _ Hm))
      as (Hnd & Hsub & Hkeys).
    split_and!; [done| |].
    + intros x Hx. destruct (Hsub x Hx) as [Hx'|[? ?]].
      * destruct (map_set_elem_of _ _ _ _ Hx') as [->|?]; [|by left].
        right. split; [done|]. by left.
      * right. split; [done|]. by right.
    + intros k Hk. apply Hkeys. rewrite map_set_key_elem_of.
      rewrite elem_of_cons in Hk. tauto.
Qed.

Lemma allContactsOf_elem_of ex fetched c :
  c ∈ allContactsOf ex fetched → c ∈ ex ++ fetched.
Proof.
  unfold allContactsOf, map_values.
  intros (x & -> & Hx)%list_elem_of_fmap.
  destruct (allContacts_fold (ex ++ fetched) [] (NoDup_nil_2)) as (_ & Hsub & _).
  destruct (Hsub x Hx) as [?%elem_of_nil|[_ ?]]; done.
Qed.

Lemma allContactsOf_NoDup ex fetched :
  NoDup (id <$> allContactsOf ex fetched).
Proof.
  unfold allContactsOf, map_values.
  destruct (allContacts_fold (ex ++ fetched) [] (NoDup_nil_2)) as (Hnd & Hsub & _).
  rewrite <- list_fmap_compose.
  erewrite list_fmap_ext; [exact Hnd|].
  intros i x Hx. simpl.
  destruct (Hsub x (list_elem_of_lookup_2 _ _ _ Hx)) as [?%elem_of_nil|[? _]]; done.
Qed.

Lemma allContactsOf_complete ex fetched c :
  (∀ c1 c2, c1 ∈ ex ++ fetched → c2 ∈ ex ++ fetched → id c1 = id c2 → c1 = c2) →
  c ∈ ex ++ fetched → c ∈ allContactsOf ex fetched.
Proof.
  intros Huniq Hc. unfold allContactsOf, map_values.
  destruct (allContacts_fold (ex ++ fetched) [] (NoDup_nil_2)) as (_ & Hsub & Hkeys).
  assert (id c ∈ fst <$> foldl (λ m c0, map_set m (id c0) c0) [] (ex ++ fetched))
    as (x & Hid & Hx)%list_elem_of_fmap.
  { apply Hkeys. right. by apply list_elem_of_fmap_2. }
  apply list_elem_of_fmap. exists x. split; [|done].
  destruct (Hsub x Hx) as [?%elem_of_nil|[Hk Hin]]; [done|].
  apply Huniq; [done..|congruence].
Qed.

Lemma sort_insert_perm c l : sort_insert c l ≡ₚ c :: l.
Proof.
  induction l as [|d l IH]; [done|]. simpl.
  destruct (createdat c <=? createdat d); [done|].
  rewrite IH. apply Permutation_swap.
Qed.

Lemma sort_by_createdat_perm l : sort_by_createdat l ≡ₚ l.
Proof.
  induction l as [|c l IH]; [done|]. simpl.
  rewrite sort_insert_perm. by f_equiv.
Qed.

Lemma sort_insert_sorted c l :
  StronglySorted older_or_same l → StronglySorted older_or_same (sort_insert c l).
Proof.
  induction 1 as [|d l Hl IH Hd]; simpl.
  - repeat constructor.
  - destruct (Z.leb_spec (createdat c) (createdat d)) as [Hle|Hgt].
    + constructor; [by constructor|].
      constructor; [done|].
      eapply Forall_impl; [exact Hd|]. unfold older_or_same. intros; lia.
    + constructor; [done|].
      rewrite sort_insert_perm. constructor; [|done].
      unfold older_or_same. lia.
Qed.

Lemma sort_by_createdat_sorted l :
  StronglySorted older_or_same (sort_by_createdat l).
Proof.
  induction l as [|c l IH]; simpl; [constructor|by apply sort_insert_sorted].
Qed.

(** The head of the sorted list is the oldest of the list. *)
Lemma sort_by_createdat_head l u rest :
  sort_by_createdat l = u :: rest →
  ∀ p, p ∈ l → createdat u ≤ createdat p.
Proof.
  intros Hs p Hp.
  pose proof (sort_by_createdat_sorted l) as Hsorted.
  rewrite <- (sort_by_createdat_perm l), Hs in Hp. rewrite Hs in Hsorted.
  apply StronglySorted_inv in Hsorted as [_ Hall].
  apply elem_of_cons in Hp as [->|Hp]; [unfold older_or_same; lia|].
  by apply (proj1 (Forall_forall _ _) Hall).
Qed.

Lemma elem_of_addPrimaryId s c l :
  l ∈ addPrimaryId s c
  ↔ l ∈ s ∨ (linkprecedence c = primary ∧ l = id c)
      ∨ (linkprecedence c = secondary ∧ linkedid c = Some l ∧ l ≠ 0).
Proof.
  unfold addPrimaryId, is_primary, truthy_num.
  destruct c as [i ph em li pr cr up de]; simpl.
  destruct pr; simpl.
  - rewrite elem_of_union, elem_of_singleton.
    split; [intros [?|?]; auto|intros [?|[[_ ?]|[? _]]]; auto; done].
  - destruct li as [li|]; simpl.
    + destruct (Z.eqb_spec li 0) as [->|Hne]; simpl.
      * split; [auto|]. intros [?|[[? _]|(_ & ? & ?)]]; [done|done|congruence].
      * rewrite elem_of_union, elem_of_singleton.
        split; [intros [?|Hl]; [auto|subst l; auto]|].
        intros [?|[[? _]|(_ & ? & ?)]]; [auto|done|right; congruence].
    + split; [auto|]. intros [?|[[? _]|(_ & ? & _)]]; done.
Qed.

Lemma primaryIdSet_fold ex s l :
  l ∈ foldl addPrimaryId s ex
  ↔ l ∈ s ∨ ∃ c, c ∈ ex ∧
      ((linkprecedence c = primary ∧ l = id c)
       ∨ (linkprecedence c = secondary ∧ linkedid c = Some l ∧ l ≠ 0)).
Proof.
  revert s. induction ex as [|c ex IH]; intros s; simpl.
  - split; [by left|]. intros [?|(c & ?%elem_of_nil & _)]; done.
  - rewrite IH, elem_of_addPrimaryId. clear IH. split.
    + intros [[?|Hc]|(c' & Hin & Hc')]; [by left| |].
      * right. exists c. split; [by left|done].
      * right. exists c'. split; [by right|done].
    + intros [?|(c' & [->|Hin]%elem_of_cons & Hc')]; [by left; left| |].
      * left. by right.
      * right. by exists c'.
Qed.

Lemma elem_of_primaryIdSet ex l :
  l ∈ primaryIdSet ex
  ↔ ∃ c, c ∈ ex ∧
      ((linkprecedence c = primary ∧ l = id c)
       ∨ (linkprecedence c = secondary ∧ linkedid c = Some l ∧ l ≠ 0)).
Proof.
  unfold primaryIdSet. rewrite primaryIdSet_fold.
  split; [intros [?%elem_of_empty|?]; done|by right].
Qed.

(** ** What the handler reads *)

Lemma id_inj_table (l : list Contact) c1 c2 :
  NoDup (id <$> l) → c1 ∈ l → c2 ∈ l → id c1 = id c2 → c1 = c2.
Proof.
  induction l as [|c l IH]; csimpl; [by intros _ ?%elem_of_nil|].
  rewrite NoDup_cons, !elem_of_cons. intros [Hc Hnd] [->|H1] [->|H2] Heq; auto.
  - destruct Hc. rewrite Heq. by apply list_elem_of_fmap_2.
  - destruct Hc. rewrite <- Heq. by apply list_elem_of_fmap_2.
Qed.

Lemma is_null_None {A} (o : option A) : is_null o = true ↔ o = None.
Proof. by destruct o. Qed.

Lemma sql_eq_Some {A} `{EqDecision A} (o : option A) x :
  sql_eq o (Some x) = true ↔ o = Some x.
Proof.
  destruct o as [y|]; simpl; [|done].
  rewrite bool_decide_eq_true. split; congruence.
Qed.

Lemma elem_of_existingContactsIn req d c :
  c ∈ existingContactsIn req d →
  c ∈ table d ∧ deletedat c = None
  ∧ (sql_eq (email c) (req_email req)
     || sql_eq (phonenumber c) (req_phonenumber req)) = true.
Proof.
  unfold existingContactsIn.
  destruct (_ && _); [by intros ?%elem_of_nil|].
  rewrite list_elem_of_filter. unfold matchesEmailOrPhone.
  intros [[? ?%is_null_None]%Is_true_true%andb_true_iff ?]. done.
Qed.

Lemma elem_of_primaryContactsFromDbIn req d c :
  c ∈ primaryContactsFromDbIn req d
  ↔ c ∈ table d ∧ deletedat c = None
    ∧ id c ∈ primaryIdSet (existingContactsIn req d).
Proof.
  unfold primaryContactsFromDbIn. cbv zeta. case_bool_decide as Hsize.
  - rewrite list_elem_of_filter. unfold idAmong.
    rewrite Is_true_true, andb_true_iff, bool_decide_eq_true, is_null_None.
    tauto.
  - assert (primaryIdSet (existingContactsIn req d) = ∅) as ->.
    { apply leibniz_equiv, size_empty_iff. lia. }
    split; [by intros ?%elem_of_nil|]. by intros (_ & _ & ?%elem_of_empty).
Qed.

Lemma elem_of_allContactsIn req d c :
  NoDup (id <$> table d) →
  c ∈ allContactsIn req d
  ↔ c ∈ existingContactsIn req d ∨ c ∈ primaryContactsFromDbIn req d.
Proof.
  intros Hnd. unfold allContactsIn. rewrite <- elem_of_app. split.
  - apply allContactsOf_elem_of.
  - apply allContactsOf_complete. intros c1 c2 H1 H2.
    apply (id_inj_table (table d)); [done| |].
    + apply elem_of_app in H1 as [H1|H1].
      * by apply elem_of_existingContactsIn in H1 as [? _].
      * by apply elem_of_primaryContactsFromDbIn in H1 as [? _].
    + apply elem_of_app in H2 as [H2|H2].
      * by apply elem_of_existingContactsIn in H2 as [? _].
      * by apply elem_of_primaryContactsFromDbIn in H2 as [? _].
Qed.

Lemma allContactsIn_table req d c :
  c ∈ allContactsIn req d → c ∈ table d ∧ deletedat c = None.
Proof.
  intros [H|H]%allContactsOf_elem_of%elem_of_app.
  - apply elem_of_existingContactsIn in H. tauto.
  - apply elem_of_primaryContactsFromDbIn in H. tauto.
Qed.

Lemma elem_of_allPrimaryContactsOf l c :
  c ∈ allPrimaryContactsOf l ↔ linkprecedence c = primary ∧ c ∈ l.
Proof.
  unfold allPrimaryContactsOf. rewrite sort_by_createdat_perm.
  rewrite list_elem_of_filter. unfold is_primary.
  by rewrite Is_true_true, bool_decide_eq_true.
Qed.

(** The candidate primaries are the involved primaries. *)
Lemma elem_of_allPrimaryContactsIn req d p :
  primary_key d →
  p ∈ allPrimaryContactsIn req d ↔ involved req d p.
Proof.
  intros (Hnd & _ & Hpos). unfold allPrimaryContactsIn, involved.
  rewrite elem_of_allPrimaryContactsOf, elem_of_allContactsIn by done.
  rewrite elem_of_primaryContactsFromDbIn, elem_of_primaryIdSet. split.
  - intros [Hp [Hex|(Hin & Hlive & c & Hc & Hcp)]].
    + destruct (elem_of_existingContactsIn _ _ _ Hex) as (? & ? & _).
      split_and!; [done..|]. exists p. auto.
    + split_and!; [done..|]. exists c. split; [done|].
      destruct Hcp as [[Hprim Hid]|(? & ? & _)]; [|by right].
      left. apply (id_inj_table (table d)); [done| |done|done].
      by apply elem_of_existingContactsIn in Hc as [? _].
  - intros (Hin & Hlive & Hp & c & Hc & Hcp). split; [done|].
    destruct Hcp as [->|[Hsec Hlink]]; [by left|].
    right. split_and!; [done..|]. exists c. split; [done|].
    right. split_and!; [done..|]. specialize (Hpos p Hin). lia.
Qed.

(** ** What the demotion loop writes *)

Lemma relinked_nil u c : relinked u [] c c.
Proof.
  unfold relinked. split_and!; try done.
  rewrite decide_False by apply not_elem_of_nil.
  split; [done|]. destruct (linkedid c); [|done].
  by rewrite decide_False by apply not_elem_of_nil.
Qed.

Lemma relinked_step u i now1 now2 c :
  relinked u [i] c
    (let c1 := if bool_decide (id c = i)
               then mkContact (id c) (phonenumber c) (email c) (Some u)
                      secondary (createdat c) now1 (deletedat c)
               else c in
     if sql_eq (linkedid c1) (Some i)
     then mkContact (id c1) (phonenumber c1) (email c1) (Some u)
            (linkprecedence c1) (createdat c1) now2 (deletedat c1)
     else c1).
Proof.
  unfold relinked. cbv zeta.
  destruct (decide (id c = i)) as [Hi|Hi].
  - rewrite bool_decide_true by done. rewrite decide_True by (by apply list_elem_of_singleton).
    by destruct (sql_eq _ _).
  - rewrite bool_decide_false by done.
    rewrite decide_False by (by rewrite list_elem_of_singleton).
    destruct (linkedid c) as [l|] eqn:Hl; simpl.
    + destruct (decide (l = i)) as [->|Hne].
      * rewrite bool_decide_true by done. simpl.
        by rewrite decide_True by (by apply list_elem_of_singleton).
      * rewrite bool_decide_false by done. rewrite Hl.
        by rewrite decide_False by (by rewrite list_elem_of_singleton).
    + by rewrite Hl.
Qed.

Lemma relinked_cons u i ids c c1 c2 :
  relinked u [i] c c1 → relinked u ids c1 c2 → relinked u (i :: ids) c c2.
Proof.
  unfold relinked.
  intros (Hid1 & He1 & Hp1 & Hc1 & Hd1 & H1) (Hid2 & He2 & Hp2 & Hc2 & Hd2 & H2).
  split_and!; try congruence.
  rewrite Hid1 in H2.
  destruct (decide (id c ∈ i :: ids)) as [Hin|Hin];
    destruct (decide (id c ∈ [i])) as [Hi|Hi];
    destruct (decide (id c ∈ ids)) as [Hids|Hids];
    rewrite ?list_elem_of_singleton, ?elem_of_cons in *; try tauto.
  - destruct H1 as [Hl Hs], H2 as [Hs2 Hl2]. rewrite Hl in Hl2.
    split; [|congruence]. by destruct (decide (u ∈ ids)).
  - destruct H1 as [Hs Hl], H2 as [Hs2 Hl2]. split; [congruence|].
    rewrite Hl2, Hl. destruct (linkedid c) as [l|]; [|done].
    destruct (decide (l ∈ [i])) as [Hli|Hli];
      destruct (decide (l ∈ i :: ids)) as [Hlin|Hlin];
      rewrite ?list_elem_of_singleton, ?elem_of_cons in *; try tauto.
    + by destruct (decide (u ∈ ids)).
    + destruct (decide (l ∈ ids)); tauto.
    + destruct (decide (l ∈ ids)); tauto.
Qed.

Lemma demotionWrites_rows u losers d :
  let d' := apply_writes (demotionWrites u losers) d in
  Forall2 (relinked u (id <$> losers)) (table d) (table d')
  ∧ serial d' = serial d.
Proof.
  revert d. induction losers as [|p losers IH]; intros d; cbv zeta.
  - split; [|done]. apply Forall_Forall2_diag, Forall_forall.
    intros c _. apply relinked_nil.
  - rewrite demotionWrites_cons. simpl apply_writes.
    fold (apply_writes (demotionWrites u losers)).
    set (d1 := (repointStmt (id p) u (demoteStmt (id p) (Some u) secondary d).2).2).
    destruct (IH d1) as [Hrows Hserial]. split; [|exact Hserial].
    eapply Forall2_trans; [|clear Hrows|exact Hrows].
    { intros c c1 c2. apply relinked_cons. }
    unfold d1, repointStmt, demoteStmt, update. simpl.
    rewrite <- list_fmap_compose. apply Forall2_fmap_r, Forall_Forall2_diag, Forall_forall.
    intros c _. apply relinked_step.
Qed.

Lemma allPrimaryContactsIn_cons_reads req d u losers :
  allPrimaryContactsIn req d = u :: losers →
  negb (truthy (req_email req)) && negb (truthy (req_phonenumber req)) = false
  ∧ length (existingContactsIn req d) ≠ 0%nat
  ∧ (0 < size (primaryIdSet (existingContactsIn req d)))%nat.
Proof.
  intros Hprim.
  assert (u ∈ allPrimaryContactsIn req d) as Hu by (rewrite Hprim; by left).
  apply elem_of_allPrimaryContactsOf in Hu as [Hp Hall].
  apply allContactsOf_elem_of, elem_of_app in Hall.
  assert (id u ∈ primaryIdSet (existingContactsIn req d)) as Hid.
  { destruct Hall as [Hu|Hu].
    - apply elem_of_primaryIdSet. exists u. auto.
    - apply elem_of_primaryContactsFromDbIn in Hu. tauto. }
  assert (0 < size (primaryIdSet (existingContactsIn req d)))%nat as Hsize.
  { destruct (size (primaryIdSet (existingContactsIn req d))) eqn:Hs; [|lia].
    apply size_empty_iff in Hs. rewrite Hs in Hid. by apply elem_of_empty in Hid. }
  apply elem_of_primaryIdSet in Hid as (c & Hc & _).
  split_and!; [|by destruct (existingContactsIn req d); [apply elem_of_nil in Hc|]|done].
  unfold existingContactsIn in Hc. destruct (_ && _); [by apply elem_of_nil in Hc|done].
Qed.

(** The handler when the pool rejects write number [j] of the plan (counting
    from 0): the earlier writes stay and the body throws. *)
Lemma identify_write_failure req d u losers j :
  allPrimaryContactsIn req d = u :: losers →
  (j < length (planWrites req d (id u) losers))%nat →
  identify req (mkPool d (Some (2 + j)%nat))
  = (inl QueryError,
     mkPool (apply_writes (take j (planWrites req d (id u) losers)) d)
            (Some 0%nat)).
Proof.
  intros Hprim Hj.
  destruct (allPrimaryContactsIn_cons_reads _ _ _ _ Hprim) as (Htruthy & Hex & Hsize).
  unfold identify.
  erewrite bind_inr by (by apply find_run). rewrite Htruthy.
  rewrite bool_decide_false by done.
  erewrite bind_inr by (by apply fetch_run).
  rewrite (bool_decide_true _ Hsize).
  fold (allContactsIn req d). fold (allPrimaryContactsIn req d).
  fold (isNewEmailIn req d). fold (isNewPhoneIn req d).
  rewrite Hprim. simpl head. simpl tail. simpl length. cbv zeta.
  change (spend (spend (Some (2 + j)%nat))) with (Some j).
  change (head (u :: losers)) with (Some u).
  unfold planWrites, insertWrites in *. rewrite length_app, length_demotionWrites in Hj.
  assert ((if bool_decide (1 < S (length losers))%nat
           then demoteLoop (Some u) losers else mret tt) (mkPool d (Some j))
          = demoteLoop (Some u) losers (mkPool d (Some j))) as Hloop.
  { case_bool_decide; [done|]. destruct losers; [done|simpl in *; lia]. }
  destruct (decide (j < 2 * length losers)%nat) as [Hlt|Hge].
  - erewrite bind_inl.
    2:{ rewrite Hloop, demoteLoop_run. by rewrite decide_True by done. }
    by rewrite take_app_le by (rewrite length_demotionWrites; lia).
  - erewrite bind_inr.
    2:{ rewrite Hloop, demoteLoop_run. by rewrite decide_False by done. }
    destruct (isNewEmailIn req d || isNewPhoneIn req d); simpl in Hj; [|lia].
    replace (j - 2 * length losers)%nat with 0%nat by lia.
    erewrite bind_inl.
    2:{ erewrite bind_inr by reflexivity. unfold createContact.
        erewrite bind_inl by apply pool_query_down. reflexivity. }
    rewrite take_app_ge by (rewrite length_demotionWrites; lia).
    rewrite length_demotionWrites.
    replace (j - 2 * length losers)%nat with 0%nat by lia.
    by rewrite app_nil_r.
Qed.

(** The table after the writes of a request: every old row relinked, and
    the new secondary last when there is one. *)
Lemma planWrites_table req d u losers :
  let d' := apply_writes (planWrites req d u losers) d in
  ∃ rows now,
    Forall2 (relinked u (id <$> losers)) (table d) rows
    ∧ table d' = rows ++ (if isNewEmailIn req d || isNewPhoneIn req d
                          then [newSecondary req d u now] else [])
    ∧ serial d' = serial d + (if isNewEmailIn req d || isNewPhoneIn req d
                              then 1 else 0).
Proof.
  cbv zeta. unfold planWrites. rewrite apply_writes_app.
  destruct (demotionWrites_rows u losers d) as [Hrows Hserial].
  set (d1 := apply_writes (demotionWrites u losers) d) in *.
  exists (table d1), (clock d1). split; [done|].
  unfold insertWrites. destruct (isNewEmailIn req d || isNewPhoneIn req d); simpl.
  - unfold newSecondary. rewrite Hserial. done.
  - rewrite app_nil_r. split; [done|lia].
Qed.

Lemma Forall2_elem_of_l {A B} (R : A → B → Prop) l k x :
  Forall2 R l k → x ∈ l → ∃ y, y ∈ k ∧ R x y.
Proof.
  induction 1 as [|a b l k HR _ IH]; [by intros ?%elem_of_nil|].
  intros [->|Hx]%elem_of_cons.
  - exists b. split; [by left|done].
  - destruct (IH Hx) as (y & ? & ?). exists y. split; [by right|done].
Qed.

Lemma Forall2_elem_of_r {A B} (R : A → B → Prop) l k y :
  Forall2 R l k → y ∈ k → ∃ x, x ∈ l ∧ R x y.
Proof.
  induction 1 as [|a b l k HR _ IH]; [by intros ?%elem_of_nil|].
  intros [->|Hy]%elem_of_cons.
  - exists a. split; [by left|done].
  - destruct (IH Hy) as (x & ? & ?). exists x. split; [by right|done].
Qed.

Lemma list_find_filter_head (P : Contact → bool) l :
  snd <$> list_find (λ c, P c) l = head (filter (λ c, P c) l).
Proof.
  induction l as [|c l IH]; [done|]. simpl.
  rewrite filter_cons. destruct (decide (P c)) as [Hc|Hc]; [done|].
  rewrite <- IH. by destruct (list_find _ l) as [[? ?]|].
Qed.

Lemma buildResponse_spec contacts :
  buildResponse contacts =
  match filter (λ c, is_primary c) contacts with
  | [] => inl TypeError
  | p :: _ =>
      inr (mkConsolidated (id p) (getAllEmails contacts)
             (getAllPhones contacts)
             (id <$> filter (λ c, is_secondary c) contacts))
  end.
Proof.
  unfold buildResponse. rewrite list_find_filter_head.
  by destruct (filter _ contacts).
Qed.

(** ** The table after a request that found a primary *)

Lemma allPrimaryContactsIn_NoDup req d :
  NoDup (id <$> allPrimaryContactsIn req d).
Proof.
  unfold allPrimaryContactsIn, allPrimaryContactsOf.
  rewrite sort_by_createdat_perm.
  eapply sublist_NoDup; [apply allContactsOf_NoDup|].
  apply fmap_sublist, sublist_filter.
Qed.

Lemma allPrimaryContactsIn_table req d p :
  p ∈ allPrimaryContactsIn req d →
  p ∈ table d ∧ deletedat p = None ∧ linkprecedence p = primary.
Proof.
  intros [Hp Hin]%elem_of_allPrimaryContactsOf.
  apply allContactsIn_table in Hin. tauto.
Qed.

Lemma elem_of_clusterMembers primaryId d c :
  c ∈ clusterMembers primaryId d
  ↔ c ∈ table d ∧ deletedat c = None
    ∧ (id c = primaryId ∨ linkedid c = Some primaryId).
Proof.
  unfold clusterMembers, linkedToPrimary. rewrite list_elem_of_filter.
  rewrite Is_true_true, andb_true_iff, orb_true_iff, bool_decide_eq_true.
  rewrite is_null_None, sql_eq_Some. tauto.
Qed.

Section merge.
Context (req : Request) (d : Db) (u : Contact) (losers : list Contact).
Hypothesis Hprim : allPrimaryContactsIn req d = u :: losers.

Local Abbreviation d' := (apply_writes (planWrites req d (id u) losers) d).

Lemma handler_found_primary :
  handler req (connected d)
  = (match buildResponse (clusterMembers (id u) d') with
     | inr c => Json200 c
     | inl _ => Error500
     end, connected d').
Proof.
  unfold handler. rewrite identify_connected.
  destruct (allPrimaryContactsIn_cons_reads _ _ _ _ Hprim) as (_ & Hex & _).
  rewrite bool_decide_false by done. rewrite Hprim. cbv zeta.
  by destruct (buildResponse _).
Qed.

Lemma ultimate_in_table :
  u ∈ table d ∧ deletedat u = None ∧ linkprecedence u = primary.
Proof. apply (allPrimaryContactsIn_table req). rewrite Hprim. by left. Qed.

Lemma loser_in_table p :
  p ∈ losers →
  p ∈ table d ∧ deletedat p = None ∧ linkprecedence p = primary.
Proof.
  intros Hp. apply (allPrimaryContactsIn_table req). rewrite Hprim. by right.
Qed.

Lemma ultimate_not_loser : id u ∉ id <$> losers.
Proof.
  pose proof (allPrimaryContactsIn_NoDup req d) as Hnd.
  rewrite Hprim in Hnd. by apply NoDup_cons in Hnd as [? _].
Qed.

Lemma ultimate_oldest p : p ∈ losers → createdat u ≤ createdat p.
Proof.
  intros Hp. unfold allPrimaryContactsIn, allPrimaryContactsOf in Hprim.
  apply (sort_by_createdat_head _ _ _ Hprim).
  rewrite <- sort_by_createdat_perm, Hprim. by right.
Qed.

(** The ultimate primary is still a primary, and in its own cluster. *)
Lemma ultimate_survives :
  ∃ u', u' ∈ clusterMembers (id u) d' ∧ id u' = id u
        ∧ linkprecedence u' = primary.
Proof.
  destruct (planWrites_table req d (id u) losers)
    as (rows & now & Hrows & Htable & _).
  destruct ultimate_in_table as (Hin & Hlive & Hp).
  destruct (Forall2_elem_of_l _ _ _ _ Hrows Hin)
    as (u' & Hu' & Hid & _ & _ & _ & Hdel & Hlink).
  rewrite decide_False in Hlink by apply ultimate_not_loser.
  exists u'. split_and!; [|done|by rewrite (proj1 Hlink)].
  apply elem_of_clusterMembers. rewrite Htable, elem_of_app.
  split_and!; [by left|congruence|by left].
Qed.



(** No other primary sits in the cluster of the ultimate primary. *)
Lemma cluster_primary_is_ultimate c' :
  primaries_unlinked d →
  c' ∈ clusterMembers (id u) d' → linkprecedence c' = primary →
  id c' = id u.
Proof.
  intros Hunl [Hc' [_ Hlinked]]%elem_of_clusterMembers Hp.
  destruct Hlinked as [?|Hlinked]; [done|]. exfalso.
  destruct (planWrites_table req d (id u) losers)
    as (rows & now & Hrows & Htable & _).
  rewrite Htable, elem_of_app in Hc'. destruct Hc' as [Hc'|Hc'].
  - destruct (Forall2_elem_of_r _ _ _ _ Hrows Hc')
      as (c & Hc & Hidc & _ & _ & _ & _ & Hlink).
    destruct (decide (id c ∈ id <$> losers)); [destruct Hlink; congruence|].
    destruct Hlink as [Hs Hl].
    rewrite (Hunl c Hc) in Hl by congruence. congruence.
  - destruct (isNewEmailIn req d || isNewPhoneIn req d);
      [|by apply elem_of_nil in Hc'].
    apply list_elem_of_singleton in Hc' as ->. done.
Qed.

Lemma response_found_primary :
  primaries_unlinked d →
  ∃ resp,
    buildResponse (clusterMembers (id u) d') = inr resp
    ∧ primaryContactId resp = id u
    ∧ emails resp = getAllEmails (clusterMembers (id u) d')
    ∧ phoneNumbers resp = getAllPhones (clusterMembers (id u) d')
    ∧ secondaryContactIds resp
      = id <$> filter (λ c, is_secondary c) (clusterMembers (id u) d').
Proof.
  intros Hunl. rewrite buildResponse_spec.
  destruct (filter (λ c, is_primary c) (clusterMembers (id u) d'))
    as [|p others] eqn:Hf.
  - destruct ultimate_survives as (u' & Hu' & _ & Hp).
    assert (u' ∈ filter (λ c, is_primary c) (clusterMembers (id u) d')) as Hin.
    { apply list_elem_of_filter. split; [|done].
      unfold is_primary. by rewrite Is_true_true, bool_decide_eq_true. }
    rewrite Hf in Hin. by apply elem_of_nil in Hin.
  - eexists. split_and!; try done. simpl.
    assert (p ∈ filter (λ c, is_primary c) (clusterMembers (id u) d')) as Hin
      by (rewrite Hf; by left).
    apply list_elem_of_filter in Hin as [Hp Hin].
    apply cluster_primary_is_ultimate; [done..|].
    unfold is_primary in Hp. by rewrite Is_true_true, bool_decide_eq_true in Hp.
Qed.
End merge.

(** ** The sample stores *)

(** Each of them is what the service itself builds from the empty table. *)
Lemma two_clusters_reachable :
  serve two_clusters_history no_contacts = two_clusters.
Proof. reflexivity. Qed.

Lemma orphaned_cluster_reachable :
  serve orphaned_cluster_history no_contacts = orphaned_cluster.
Proof. reflexivity. Qed.

Lemma shrunk_cluster_reachable :
  serve shrunk_cluster_history no_contacts = shrunk_cluster.
Proof. reflexivity. Qed.

Ltac fits_columns_ok :=
  split; simpl; first [done | split; [lia|apply (bool_decide_unpack _); by vm_compute]].

Ltac each_row H :=
  simpl in H; repeat (apply elem_of_cons in H as [->|H]);
  [..|by apply elem_of_nil in H].

Lemma two_clusters_primary_key : primary_key two_clusters.
Proof.
  split_and!.
  - apply (bool_decide_unpack _). by vm_compute.
  - done.
  - intros c Hc. each_row Hc; done.
Qed.

Lemma two_clusters_primaries_unlinked : primaries_unlinked two_clusters.
Proof. intros c Hc. each_row Hc; done. Qed.



Lemma two_clusters_foreign_key : foreign_key two_clusters.
Proof.
  intros c l Hc Hl. each_row Hc; simplify_eq/=.
  exists marty. split; [set_solver|done].
Qed.

Lemma two_clusters_no_chain : no_chain two_clusters.
Proof. intros c p Hc Hp Hl. each_row Hc; each_row Hp; simplify_eq/=; done. Qed.

Lemma two_clusters_secondaries_linked : secondaries_linked two_clusters.
Proof.
  intros c Hc Hsec. each_row Hc; simplify_eq/=. by exists 2.
Qed.

Lemma two_clusters_ok : store_ok two_clusters.
Proof.
  split_and!.
  - exact two_clusters_primary_key.
  - exact two_clusters_foreign_key.
  - exact two_clusters_no_chain.
  - exact two_clusters_primaries_unlinked.
  - exact two_clusters_secondaries_linked.
Qed.

Lemma two_clusters_live : live_primaries two_clusters.
Proof. intros c p Hc Hp _ _. each_row Hp; done. Qed.

(** * The claims *)

(** ** No-match path *)

(** C9: submitting [{email: "a@x.com"}] with no phone against an empty store
    creates exactly one contact, a primary without [linkedid], and answers
    with that contact's id, [emails = ["a@x.com"]], [phoneNumbers = []] and
    [secondaryContactIds = []]. *)
Theorem C9_no_match_creates_primary (lastval now : Z) :
  handler (mkRequest (Some "a@x.com"%string) None)
    (connected (mkDb [] lastval now))
  = (Json200 (mkConsolidated (lastval + 1) ["a@x.com"%string] [] []),
     connected
       (mkDb [mkContact (lastval + 1) None (Some "a@x.com"%string) None
                primary now now None]
          (lastval + 1) (now + 1))).
Proof. unfold handler. by rewrite identify_connected. Qed.

(** C6, as the claim states it, fails: a request without email and phone
    against the empty store is answered with a success response and leaves
    a new row behind. *)
Lemma C6_empty_request_is_accepted :
  handler empty_request (connected no_contacts)
  = (Json200 (mkConsolidated 1 [] [] []),
     connected (mkDb [mkContact 1 None None None primary 1000 1000 None]
                  1 1001)).
Proof. reflexivity. Qed.

(** C6, amended: a request with neither an email nor a phone (absent or
    empty) is not rejected.  The lookup matches nothing, the handler takes
    the no-match path, appends one new primary row that carries the
    submitted fields and no [linkedid], leaves the existing rows as they
    are, and answers with the new id and empty lists. *)
Theorem C6_empty_request_creates_primary req d :
  truthy (req_email req) = false →
  truthy (req_phonenumber req) = false →
  handler req (connected d)
  = (Json200 (mkConsolidated (serial d + 1) [] [] []),
     connected
       (mkDb (table d ++ [mkContact (serial d + 1) (req_phonenumber req)
                            (req_email req) None primary (clock d) (clock d)
                            None])
          (serial d + 1) (clock d + 1))).
Proof.
  intros He Hp. unfold handler. rewrite identify_connected.
  unfold existingContactsIn. rewrite He, Hp. simpl.
  by rewrite He, Hp.
Qed.

Lemma C6_empty_request_creates_primary_witness :
  handler blank_request (connected two_clusters)
  = (Json200 (mkConsolidated 4 [] [] []),
     connected
       (mkDb [doc; marty; marty_alias;
              mkContact 4 (Some EmptyString) (Some EmptyString) None primary
                1003 1003 None] 4 1004)).
Proof.
  exact (C6_empty_request_creates_primary blank_request two_clusters
           eq_refl eq_refl).
Defined.

(** ** Response builder *)

(** C8, as the claim states it, fails: a membership with two primaries is
    consolidated, under the first of them. *)
Lemma C8_two_primaries_are_accepted :
  buildResponse [doc; marty; marty_alias]
  = inr (mkConsolidated 1 ["a@x.com"%string; "m@x.com"%string]
           ["222"%string] [3]).
Proof. reflexivity. Qed.

(** C8, amended: the builder fails exactly when the membership holds no
    primary.  With one or more primaries it answers: the first primary in
    membership order gives [primaryContactId], and [secondaryContactIds]
    lists the secondaries only, so that further primaries are left out. *)
Theorem C8_builder_fails_without_primary contacts :
  match filter (λ c, linkprecedence c = primary) contacts with
  | [] => buildResponse contacts = inl TypeError
  | p :: others =>
      buildResponse contacts
      = inr (mkConsolidated (id p) (getAllEmails contacts)
               (getAllPhones contacts)
               (id <$> filter (λ c, linkprecedence c = secondary) contacts))
  end.
Proof.
  rewrite buildResponse_spec.
  replace (filter (λ c, linkprecedence c = primary) contacts)
    with (filter (λ c, is_primary c) contacts).
  2:{ apply list_filter_iff. intros c. unfold is_primary.
      by rewrite Is_true_true, bool_decide_eq_true. }
  replace (filter (λ c, linkprecedence c = secondary) contacts)
    with (filter (λ c, is_secondary c) contacts);
    [by destruct (filter _ contacts)|].
  apply list_filter_iff. intros c. unfold is_secondary.
  by rewrite Is_true_true, bool_decide_eq_true.
Qed.

(** ** Undefined ultimate primary *)

(** Where every live row is linked to a live primary, a request that
    matches some contact finds its ultimate primary, also when every
    matched contact is a secondary. *)
Lemma ultimate_primary_defined req d :
  store_ok d → live_primaries d →
  existingContactsIn req d ≠ [] →
  ∃ u, head (allPrimaryContactsIn req d) = Some u.
Proof.
  intros (Hpk & Hfk & Hchain & _ & Hlinked) Hlive Hex.
  assert (∃ p, involved req d p) as (p & Hp).
  { destruct (existingContactsIn req d) as [|c ex] eqn:Heq; [done|].
    assert (c ∈ existingContactsIn req d) as Hc by (rewrite Heq; by left).
    destruct (elem_of_existingContactsIn _ _ _ Hc) as (Hin & Hclive & _).
    destruct (linkprecedence c) eqn:Hprec.
    - exists c. split_and!; [done..|]. exists c. auto.
    - destruct (Hlinked c Hin Hprec) as (l & Hl & _).
      destruct (Hfk c l Hin Hl) as (p & Hp & <-).
      exists p. split_and!; [done|by apply (Hlive c p)|by apply (Hchain c p)|].
      exists c. auto. }
  apply elem_of_allPrimaryContactsIn in Hp; [|done].
  destruct (allPrimaryContactsIn req d) as [|u losers]; [by apply elem_of_nil in Hp|].
  by exists u.
Qed.

(** C10 fails on a matched secondary whose primary is soft-deleted: the
    lookup matches the secondary, no primary is fetched, the sorted list of
    primaries is empty, and reading [ultimatePrimary.id] throws. *)
Theorem C10_ultimate_primary_undefined :
  existingContactsIn email_request orphaned_cluster = [orphan]
  ∧ head (allPrimaryContactsIn email_request orphaned_cluster) = None
  ∧ handler email_request (connected orphaned_cluster)
    = (Error500, connected orphaned_cluster).
Proof. split_and!; reflexivity. Qed.

(** ** Failing writes *)

(** C4, as the claim states it, fails: when the pool is lost after the
    first [UPDATE] of a merge, the request is answered with an error and the
    demotion stays in the table, with the secondary of the demoted primary
    still pointing at it. *)
Lemma C4_failed_merge_is_not_rolled_back :
  handler link_request (mkPool two_clusters (Some 3%nat))
  = (Error500,
     mkPool
       (mkDb [doc;
              mkContact 2 (Some "222"%string) None (Some 1) secondary 1001
                1003 None;
              marty_alias] 3 1004)
       (Some 0%nat)).
Proof. reflexivity. Qed.

(** C4, amended: the writes of a request are separate statements without a
    transaction.  When write number [j] of the plan (counting from 0) is
    rejected, the request is answered with the generic error, the [j]
    writes before it stay applied and no later one is; the table is as
    before the request only for [j = 0]. *)
Theorem C4_writes_before_failure_persist req d u losers j :
  allPrimaryContactsIn req d = u :: losers →
  (j < length (planWrites req d (id u) losers))%nat →
  handler req (mkPool d (Some (2 + j)%nat))
  = (Error500,
     mkPool (apply_writes (take j (planWrites req d (id u) losers)) d)
            (Some 0%nat)).
Proof.
  intros Hprim Hj. unfold handler.
  by rewrite (identify_write_failure _ _ _ _ _ Hprim Hj).
Qed.

Lemma C4_writes_before_failure_persist_witness :
  handler link_request (mkPool two_clusters (Some 3%nat))
  = (Error500,
     mkPool
       (apply_writes
          (take 1 (planWrites link_request two_clusters (id doc) [marty]))
          two_clusters)
       (Some 0%nat)).
Proof.
  apply (C4_writes_before_failure_persist link_request two_clusters doc
           [marty] 1); [reflexivity|simpl; lia].
Defined.

(** ** Merging clusters *)



(** ** No chains *)

Lemma relinked_link_not_loser u ids c c' l :
  u ∉ ids → relinked u ids c c' → linkedid c' = Some l → l ∉ ids.
Proof.
  intros Hu (_ & _ & _ & _ & _ & Hlink) Hl.
  destruct (decide (id c ∈ ids)); [destruct Hlink; congruence|].
  destruct Hlink as [_ Hlink]. rewrite Hl in Hlink.
  destruct (linkedid c) as [l0|]; [|done].
  destruct (decide (l0 ∈ ids)); congruence.
Qed.

Lemma relinked_link_origin u ids c c' l :
  relinked u ids c c' → linkedid c' = Some l → l = u ∨ linkedid c = Some l.
Proof.
  intros (_ & _ & _ & _ & _ & Hlink) Hl.
  destruct (decide (id c ∈ ids)); [left; destruct Hlink; congruence|].
  destruct Hlink as [_ Hlink]. rewrite Hl in Hlink.
  destruct (linkedid c) as [l0|]; [|done].
  destruct (decide (l0 ∈ ids)); [left|right]; congruence.
Qed.

Lemma no_chain_found_primary req d u losers :
  allPrimaryContactsIn req d = u :: losers →
  primary_key d → foreign_key d → no_chain d →
  no_chain (apply_writes (planWrites req d (id u) losers) d).
Proof.
  intros Hprim (Hnd & _ & Hserial) Hfk Hchain c' p' Hc' Hp' Hlink.
  destruct (planWrites_table req d (id u) losers)
    as (rows & now & Hrows & Htable & _).
  destruct (ultimate_in_table req d u losers Hprim) as (Hu & _ & Hup).
  pose proof (ultimate_not_loser req d u losers Hprim) as Hul.
  rewrite Htable, elem_of_app in Hc', Hp'.
  assert (id p' = id u ∨ ∃ c, c ∈ table d ∧ linkedid c = Some (id p')) as Horigin.
  { destruct Hc' as [Hc'|Hc'].
    - destruct (Forall2_elem_of_r _ _ _ _ Hrows Hc') as (c & Hc & Hrel).
      destruct (relinked_link_origin _ _ _ _ _ Hrel Hlink); [by left|].
      right. by exists c.
    - destruct (isNewEmailIn req d || isNewPhoneIn req d);
        [|by apply elem_of_nil in Hc'].
      apply list_elem_of_singleton in Hc' as ->. simpl in Hlink. left. congruence. }
  assert (id p' ∉ id <$> losers) as Hnl.
  { destruct Hc' as [Hc'|Hc'].
    - destruct (Forall2_elem_of_r _ _ _ _ Hrows Hc') as (c & Hc & Hrel).
      by apply (relinked_link_not_loser _ _ _ _ _ Hul Hrel).
    - destruct (isNewEmailIn req d || isNewPhoneIn req d);
        [|by apply elem_of_nil in Hc'].
      apply list_elem_of_singleton in Hc' as ->. simpl in Hlink.
      by replace (id p') with (id u) by congruence. }
  destruct Hp' as [Hp'|Hp'].
  - destruct (Forall2_elem_of_r _ _ _ _ Hrows Hp')
      as (p & Hp & Hidp & _ & _ & _ & _ & Hrelp).
    rewrite <- Hidp in Hrelp. rewrite decide_False in Hrelp by done.
    rewrite (proj1 Hrelp).
    destruct Horigin as [Hpu|(c & Hc & Hcl)].
    + by rewrite (id_inj_table (table d) p u Hnd Hp Hu) by congruence.
    + apply (Hchain c p Hc Hp). congruence.
  - exfalso.
    destruct (isNewEmailIn req d || isNewPhoneIn req d);
      [|by apply elem_of_nil in Hp'].
    apply list_elem_of_singleton in Hp' as ->. simpl in *.
    destruct Horigin as [Hpu|(c & Hc & Hcl)].
    + specialize (Hserial u Hu). lia.
    + destruct (Hfk c _ Hc Hcl) as (p & Hp & Hidp).
      specialize (Hserial p Hp). lia.
Qed.

(** C2, as the claim states it, fails.  The demotion of a primary and the
    relinking of its secondaries are two statements; when the pool is lost
    between them the request ends with a row linked to a secondary, and a
    later request that is served keeps it there. *)
Lemma C2_failed_merge_leaves_a_chain :
  no_chain two_clusters
  ∧ handler link_request (mkPool two_clusters (Some 3%nat))
    = (Error500, mkPool chained_cluster (Some 0%nat))
  ∧ marty_alias ∈ table chained_cluster
  ∧ demoted_marty ∈ table chained_cluster
  ∧ linkedid marty_alias = Some (id demoted_marty)
  ∧ linkprecedence demoted_marty = secondary
  ∧ ¬ no_chain chained_cluster
  ∧ handler email_request (connected chained_cluster)
    = (Json200 (mkConsolidated 1 ["a@x.com"%string] ["222"%string] [2]),
       connected chained_cluster).
Proof.
  split_and!; try reflexivity.
  - exact two_clusters_no_chain.
  - set_solver.
  - set_solver.
  - intros Hchain.
    assert (linkprecedence demoted_marty = primary) as Hp; [|done].
    apply (Hchain marty_alias demoted_marty); [set_solver|set_solver|done].
Qed.

(** C2, amended: after a request in which no statement was rejected no
    [linkedid] refers to a secondary, provided none did before; and when a
    primary [b] is demoted under the ultimate primary [u], every row that
    was linked to [b] is linked to [u]. *)
Theorem C2_no_chains_after_identify req d :
  primary_key d → foreign_key d → no_chain d →
  no_chain (db (handler req (connected d)).2)
  ∧ ∀ u losers b c c',
      allPrimaryContactsIn req d = u :: losers → b ∈ losers →
      c ∈ table d → linkedid c = Some (id b) →
      c' ∈ table (db (handler req (connected d)).2) → id c' = id c →
      linkedid c' = Some (id u).
Proof.
  intros Hpk Hfk Hchain. split.
  - unfold handler. rewrite identify_connected.
    case_bool_decide as Hex.
    + intros c p Hc Hp Hlink. simpl in Hc, Hp.
      rewrite elem_of_app, list_elem_of_singleton in Hc, Hp.
      destruct Hp as [Hp| ->]; [|done].
      destruct Hc as [Hc| ->]; [|done].
      by apply (Hchain c p).
    + destruct (allPrimaryContactsIn req d) as [|u losers] eqn:Hprim; [done|].
      cbv zeta. destruct (buildResponse _); simpl;
        by apply no_chain_found_primary.
  - intros u losers b c c' Hprim Hb Hc Hlink.
    rewrite (handler_found_primary req d u losers Hprim). simpl.
    intros Hc' Hid.
    destruct (planWrites_table req d (id u) losers)
      as (rows & now & Hrows & Htable & _).
    destruct Hpk as (Hnd & _ & Hserial).
    rewrite Htable, elem_of_app in Hc'. destruct Hc' as [Hc'|Hc'].
    + destruct (Forall2_elem_of_r _ _ _ _ Hrows Hc')
        as (c0 & Hc0 & Hid0 & _ & _ & _ & _ & Hrel).
      assert (c0 = c) as -> by (apply (id_inj_table (table d)); [done..|congruence]).
      destruct (decide (id c ∈ id <$> losers)); [tauto|].
      destruct Hrel as [_ ->]. rewrite Hlink.
      by rewrite decide_True by (by apply list_elem_of_fmap_2).
    + destruct (isNewEmailIn req d || isNewPhoneIn req d);
        [|by apply elem_of_nil in Hc'].
      apply list_elem_of_singleton in Hc' as ->. simpl in Hid.
      specialize (Hserial c Hc). lia.
Qed.

Lemma C2_no_chains_after_identify_witness :
  no_chain (db (handler link_request (connected two_clusters)).2)
  ∧ ∀ u losers b c c',
      allPrimaryContactsIn link_request two_clusters = u :: losers →
      b ∈ losers →
      c ∈ table two_clusters → linkedid c = Some (id b) →
      c' ∈ table (db (handler link_request (connected two_clusters)).2) →
      id c' = id c →
      linkedid c' = Some (id u).
Proof.
  apply (C2_no_chains_after_identify link_request two_clusters).
  - exact two_clusters_primary_key.
  - exact two_clusters_foreign_key.
  - exact two_clusters_no_chain.
Defined.

(** ** The invariants are kept *)

Lemma relinked_ids u ids l k :
  Forall2 (relinked u ids) l k → id <$> k = id <$> l.
Proof.
  induction 1 as [|c c' l k (Hid & _) _ IH]; [done|]. csimpl. by rewrite Hid, IH.
Qed.

Lemma store_ok_append_primary e p d :
  store_ok d →
  store_ok (mkDb (table d ++ [mkContact (serial d + 1) p e None primary
                                (clock d) (clock d) None])
              (serial d + 1) (clock d + 1)).
Proof.
  intros ((Hnd & Hser0 & Hserial) & Hfk & Hchain & Hunl & Hlinked).
  unfold store_ok, primary_key. split_and!; cbn [table serial].
  - rewrite fmap_app. apply NoDup_app. split_and!; [done| |apply NoDup_singleton].
    intros i (c & -> & Hc)%list_elem_of_fmap Heq%list_elem_of_singleton.
    specialize (Hserial c Hc). simpl in Heq. lia.
  - lia.
  - intros c [Hc| ->%list_elem_of_singleton]%elem_of_app; simpl.
    + specialize (Hserial c Hc). lia.
    + lia.
  - intros c l [Hc| ->%list_elem_of_singleton]%elem_of_app Hl; [|done].
    destruct (Hfk c l Hc Hl) as (q & Hq & Hid).
    exists q. split; [|done]. apply elem_of_app. by left.
  - intros c q [Hc| ->%list_elem_of_singleton]%elem_of_app
      [Hq| ->%list_elem_of_singleton]%elem_of_app Hl; try done.
    by apply (Hchain c q).
  - intros c [Hc| ->%list_elem_of_singleton]%elem_of_app Hprec; [|done].
    by apply Hunl.
  - intros c [Hc| ->%list_elem_of_singleton]%elem_of_app Hprec; [|done].
    by apply Hlinked.
Qed.

Lemma store_ok_found_primary req d u losers :
  allPrimaryContactsIn req d = u :: losers →
  store_ok d →
  store_ok (apply_writes (planWrites req d (id u) losers) d).
Proof.
  intros Hprim (Hpk & Hfk & Hchain & Hunl & Hlinked).
  pose proof (no_chain_found_primary req d u losers Hprim Hpk Hfk Hchain) as Hchain'.
  destruct Hpk as (Hnd & Hser0 & Hserial).
  destruct (ultimate_in_table req d u losers Hprim) as (Hu & _ & Hup).
  pose proof (Hserial u Hu) as Hidu.
  destruct (planWrites_table req d (id u) losers)
    as (rows & now & Hrows & Htable & Hserial').
  pose proof (relinked_ids _ _ _ _ Hrows) as Hids.
  set (d' := apply_writes (planWrites req d (id u) losers) d) in *.
  assert (∀ l, l ∈ id <$> table d → ∃ q, q ∈ table d' ∧ id q = l) as Hexists.
  { intros l Hl. rewrite <- Hids in Hl.
    apply list_elem_of_fmap in Hl as (q & -> & Hq).
    exists q. split; [|done]. rewrite Htable. apply elem_of_app. by left. }
  unfold store_ok, primary_key. split_and!; [| | | |done| |].
  - rewrite Htable, fmap_app, Hids. apply NoDup_app. split_and!; [done| |].
    + intros i (c & -> & Hc)%list_elem_of_fmap Hi.
      destruct (isNewEmailIn req d || isNewPhoneIn req d);
        [|by apply elem_of_nil in Hi].
      apply list_elem_of_singleton in Hi. simpl in Hi.
      specialize (Hserial c Hc). lia.
    + destruct (isNewEmailIn req d || isNewPhoneIn req d);
        [apply NoDup_singleton|constructor].
  - rewrite Hserial'. destruct (_ || _); lia.
  - intros c'. rewrite Htable, Hserial', elem_of_app. intros [Hc'|Hc'].
    + destruct (Forall2_elem_of_r _ _ _ _ Hrows Hc') as (c & Hc & -> & _).
      specialize (Hserial c Hc). destruct (_ || _); lia.
    + destruct (isNewEmailIn req d || isNewPhoneIn req d);
        [|by apply elem_of_nil in Hc'].
      apply list_elem_of_singleton in Hc' as ->. simpl. lia.
  - intros c' l Hc' Hl. apply Hexists.
    rewrite Htable, elem_of_app in Hc'. destruct Hc' as [Hc'|Hc'].
    + destruct (Forall2_elem_of_r _ _ _ _ Hrows Hc') as (c & Hc & Hrel).
      destruct (relinked_link_origin _ _ _ _ _ Hrel Hl) as [->|Hcl].
      * by apply list_elem_of_fmap_2.
      * destruct (Hfk c l Hc Hcl) as (q & Hq & <-). by apply list_elem_of_fmap_2.
    + destruct (isNewEmailIn req d || isNewPhoneIn req d);
        [|by apply elem_of_nil in Hc'].
      apply list_elem_of_singleton in Hc' as ->. simpl in Hl.
      injection Hl as <-. by apply list_elem_of_fmap_2.
  - intros c'. rewrite Htable, elem_of_app. intros [Hc'|Hc'] Hprec.
    + destruct (Forall2_elem_of_r _ _ _ _ Hrows Hc')
        as (c & Hc & _ & _ & _ & _ & _ & Hrel).
      destruct (decide (id c ∈ id <$> losers)); [destruct Hrel; congruence|].
      destruct Hrel as [Hs ->]. rewrite (Hunl c Hc); [done|congruence].
    + destruct (isNewEmailIn req d || isNewPhoneIn req d);
        [|by apply elem_of_nil in Hc'].
      by apply list_elem_of_singleton in Hc' as ->.
  - intros c'. rewrite Htable, elem_of_app. intros [Hc'|Hc'] Hprec.
    + destruct (Forall2_elem_of_r _ _ _ _ Hrows Hc')
        as (c & Hc & _ & _ & _ & _ & _ & Hrel).
      destruct (decide (id c ∈ id <$> losers)).
      { exists (id u). split; [tauto|lia]. }
      destruct Hrel as [Hs ->].
      destruct (Hlinked c Hc) as (l & -> & Hl0); [congruence|].
      destruct (decide (l ∈ id <$> losers)); [exists (id u)|exists l];
        (split; [done|lia]).
    + destruct (isNewEmailIn req d || isNewPhoneIn req d);
        [|by apply elem_of_nil in Hc'].
      apply list_elem_of_singleton in Hc' as ->. simpl.
      exists (id u). split; [done|lia].
Qed.

(** A request served by a healthy pool keeps the constraints and the
    invariants of the data model. *)
Lemma handler_keeps_store_ok req d :
  store_ok d → store_ok (db (handler req (connected d)).2).
Proof.
  intros Hok. unfold handler. rewrite identify_connected.
  case_bool_decide.
  - by apply store_ok_append_primary.
  - destruct (allPrimaryContactsIn req d) as [|u losers] eqn:Hprim; [done|].
    cbv zeta. destruct (buildResponse _); by apply store_ok_found_primary.
Qed.

Lemma no_contacts_ok : store_ok no_contacts.
Proof.
  unfold store_ok, primary_key. split_and!; try done.
  - constructor.
  - by intros c ?%elem_of_nil.
  - by intros c l ?%elem_of_nil.
  - by intros c p ?%elem_of_nil.
  - by intros c ?%elem_of_nil.
  - by intros c ?%elem_of_nil.
Qed.

Lemma softDelete_keeps_store_ok id_ d :
  store_ok d → store_ok (softDelete id_ d).
Proof.
  intros ((Hnd & Hser0 & Hserial) & Hfk & Hchain & Hunl & Hlinked).
  set (f := λ c : Contact,
         if bool_decide (id c = id_)
         then mkContact (id c) (phonenumber c) (email c) (linkedid c)
                (linkprecedence c) (createdat c) (updateat c) (Some (clock d))
         else c).
  assert (∀ c, id (f c) = id c ∧ linkedid (f c) = linkedid c
               ∧ linkprecedence (f c) = linkprecedence c) as Hf.
  { intros c. unfold f. by destruct (bool_decide _). }
  assert (id <$> (f <$> table d) = id <$> table d) as Hids.
  { rewrite <- list_fmap_compose. apply list_fmap_ext.
    intros i c _. apply Hf. }
  unfold store_ok, primary_key, softDelete. fold f. cbn [table serial].
  split_and!.
  - by rewrite Hids.
  - done.
  - intros c' (c & -> & Hc)%list_elem_of_fmap.
    rewrite (proj1 (Hf c)). by apply Hserial.
  - intros c' l (c & -> & Hc)%list_elem_of_fmap Hl.
    rewrite (proj1 (proj2 (Hf c))) in Hl.
    destruct (Hfk c l Hc Hl) as (q & Hq & <-).
    exists (f q). split; [by apply list_elem_of_fmap_2|apply Hf].
  - intros c' q' (c & -> & Hc)%list_elem_of_fmap
      (q & -> & Hq)%list_elem_of_fmap Hl.
    destruct (Hf c) as (_ & Hlc & _), (Hf q) as (Hiq & _ & Hpq).
    rewrite Hpq. apply (Hchain c q); [done..|congruence].
  - intros c' (c & -> & Hc)%list_elem_of_fmap Hprec.
    destruct (Hf c) as (_ & -> & Hpc). apply Hunl; [done|congruence].
  - intros c' (c & -> & Hc)%list_elem_of_fmap Hprec.
    destruct (Hf c) as (_ & -> & Hpc). apply Hlinked; [done|congruence].
Qed.

(** Whatever requests were served and whichever contacts were soft-deleted
    since the table was created, the constraints and invariants hold; in
    particular no [linkedid] refers to a secondary. *)
Lemma serve_keeps_store_ok history d :
  store_ok d → store_ok (serve history d).
Proof.
  revert d. induction history as [|ev history IH]; intros d Hok; [done|].
  simpl. apply IH. destruct ev as [req|id_]; simpl.
  - by apply handler_keeps_store_ok.
  - by apply softDelete_keeps_store_ok.
Qed.

Lemma no_chain_in_every_history history :
  no_chain (serve history no_contacts).
Proof.
  destruct (serve_keeps_store_ok history no_contacts no_contacts_ok)
    as (_ & _ & ? & _). done.
Qed.

(** ** New information *)

(** A live row that carries a submitted value is matched by the lookup. *)
Lemma carrier_is_matched req d c :
  NoDup (id <$> table d) →
  c ∈ table d → deletedat c = None →
  (truthy (req_email req) = true ∧ email c = req_email req)
  ∨ (truthy (req_phonenumber req) = true
     ∧ phonenumber c = req_phonenumber req) →
  c ∈ allContactsIn req d.
Proof.
  intros Hnd Hin Hlive Hcarry. apply elem_of_allContactsIn; [done|]. left.
  unfold existingContactsIn.
  assert (negb (truthy (req_email req)) && negb (truthy (req_phonenumber req))
          = false) as ->.
  { destruct Hcarry as [[-> _]|[-> _]]; [done|]. by rewrite andb_false_r. }
  apply list_elem_of_filter. split; [|done].
  unfold matchesEmailOrPhone. rewrite Is_true_true, andb_true_iff, orb_true_iff.
  rewrite is_null_None. split; [|done].
  destruct Hcarry as [[Ht He]|[Ht Hp]]; [left|right].
  - destruct (req_email req) as [s|]; [|done]. by apply sql_eq_Some.
  - destruct (req_phonenumber req) as [s|]; [|done]. by apply sql_eq_Some.
Qed.

(** The rows the handler has at hand are members of the candidate
    clusters. *)
Lemma allContactsIn_candidate_member req d c :
  store_ok d → live_primaries d →
  c ∈ allContactsIn req d → candidate_member req d c.
Proof.
  intros (Hpk & Hfk & Hchain & _ & Hlinked) Hlive Hc.
  pose proof Hpk as (Hnd & _).
  destruct (allContactsIn_table _ _ _ Hc) as [Hin Hclive].
  split; [done|].
  destruct (linkprecedence c) eqn:Hprec.
  - exists c. split; [|by left].
    apply elem_of_allPrimaryContactsIn; [done|].
    by apply elem_of_allPrimaryContactsOf.
  - apply elem_of_allContactsIn in Hc; [|done]. destruct Hc as [Hc|Hc].
    + destruct (Hlinked c Hin Hprec) as (l & Hl & _).
      destruct (Hfk c l Hin Hl) as (p & Hp & <-).
      exists p. split; [|by right].
      split_and!; [done|by apply (Hlive c p)|by apply (Hchain c p)|].
      exists c. auto.
    + exfalso.
      apply elem_of_primaryContactsFromDbIn in Hc as (_ & _ & Hid).
      apply elem_of_primaryIdSet in Hid
        as (c0 & Hc0 & [[Hp0 Hid]|(Hs0 & Hl0 & _)]).
      * destruct (elem_of_existingContactsIn _ _ _ Hc0) as (Hin0 & _).
        rewrite (id_inj_table (table d) c c0 Hnd Hin Hin0 Hid) in Hprec.
        congruence.
      * destruct (elem_of_existingContactsIn _ _ _ Hc0) as (Hin0 & _).
        pose proof (Hchain c0 c Hin0 Hin Hl0). congruence.
Qed.

Lemma candidate_member_live req d c :
  candidate_member req d c → c ∈ table d ∧ deletedat c = None.
Proof.
  intros (Hc & p & (_ & Hplive & _) & [->|[Hclive _]]); done.
Qed.

(** The handler's test and the claim's words agree. *)
Lemma email_is_new_spec req d :
  store_ok d → live_primaries d →
  isNewEmailIn req d = true ↔ email_is_new req d.
Proof.
  intros Hok Hlive. pose proof Hok as ((Hnd & _) & _).
  unfold isNewEmailIn, isNew, email_is_new.
  rewrite andb_true_iff, negb_true_iff, bool_decide_eq_false.
  unfold getAllEmails. rewrite elem_of_set_spread, list_elem_of_omap. split.
  - intros [Ht Hnot]. destruct (req_email req) as [e|] eqn:Hreq; [|done].
    exists e. split_and!; [done| |].
    + intros ->. done.
    + intros c Hc Hemail. apply Hnot. exists c. split; [|done].
      destruct (candidate_member_live _ _ _ Hc) as [Hin Hclive].
      apply carrier_is_matched; [done..|]. left. by rewrite Hreq.
  - intros (e & Hreq & Hne & Hnone). rewrite Hreq. simpl. split.
    + by rewrite bool_decide_false.
    + intros (c & Hc & Hemail). apply (Hnone c); [|done].
      by apply allContactsIn_candidate_member.
Qed.

Lemma phone_is_new_spec req d :
  store_ok d → live_primaries d →
  isNewPhoneIn req d = true ↔ phone_is_new req d.
Proof.
  intros Hok Hlive. pose proof Hok as ((Hnd & _) & _).
  unfold isNewPhoneIn, isNew, phone_is_new.
  rewrite andb_true_iff, negb_true_iff, bool_decide_eq_false.
  unfold getAllPhones. rewrite elem_of_set_spread, list_elem_of_omap. split.
  - intros [Ht Hnot].
    destruct (req_phonenumber req) as [ph|] eqn:Hreq; [|done].
    exists ph. split_and!; [done| |].
    + intros ->. done.
    + intros c Hc Hphone. apply Hnot. exists c. split; [|done].
      destruct (candidate_member_live _ _ _ Hc) as [Hin Hclive].
      apply carrier_is_matched; [done..|]. right. by rewrite Hreq.
  - intros (ph & Hreq & Hne & Hnone). rewrite Hreq. simpl. split.
    + by rewrite bool_decide_false.
    + intros (c & Hc & Hphone). apply (Hnone c); [|done].
      by apply allContactsIn_candidate_member.
Qed.

(** C3, as the claim states it, fails.  A phone number that no contact
    holds is not stored when the [INSERT] is refused: the request ends in
    the error answer and the table is as it was.  Nor is it stored when
    the matched contact is linked to a soft-deleted primary: no candidate
    primary is found and the request ends in the error answer before the
    [INSERT] is issued. *)
Lemma C3_new_phone_is_not_stored :
  (existingContactsIn new_phone_request two_clusters = [doc]
   ∧ phone_is_new new_phone_request two_clusters
   ∧ handler new_phone_request (mkPool two_clusters (Some 2%nat))
     = (Error500, mkPool two_clusters (Some 0%nat)))
  ∧ (existingContactsIn new_phone_request orphaned_cluster = [orphan]
     ∧ phone_is_new new_phone_request orphaned_cluster
     ∧ handler new_phone_request (connected orphaned_cluster)
       = (Error500, connected orphaned_cluster)).
Proof.
  split_and!; try reflexivity.
  - exists "999"%string. split_and!; [done..|].
    intros c [Hc _]. each_row Hc; done.
  - exists "999"%string. split_and!; [done..|].
    intros c [Hc _]. each_row Hc; done.
Qed.

(** C3, amended: for a request that matches a contact, on a table that
    satisfies the data model and in which no live contact is linked to a
    soft-deleted one, with submitted values that fit their columns and a
    pool that rejects no statement: one secondary row under the oldest
    candidate primary is inserted if and only if the submitted email or
    the submitted phone number is present and absent from the union over
    the complete membership of the candidate clusters; the row carries
    exactly the values that are new. *)
Theorem C3_new_information_decision req d :
  store_ok d → live_primaries d →
  existingContactsIn req d ≠ [] →
  fits_columns (req_email req) (req_phonenumber req) →
  serial d < int4_max →
  let d' := db (handler req (connected d)).2 in
  ∃ u,
    involved req d u
    ∧ (∀ p, involved req d p → createdat u ≤ createdat p)
    ∧ (((email_is_new req d ∨ phone_is_new req d)
        ∧ ∃ rows row,
            table d' ≡ₚ rows ++ [row]
            ∧ id <$> rows = id <$> table d
            ∧ id row = serial d + 1
            ∧ linkprecedence row = secondary
            ∧ linkedid row = Some (id u)
            ∧ deletedat row = None
            ∧ ((email_is_new req d ∧ email row = req_email req)
               ∨ (¬ email_is_new req d ∧ email row = None))
            ∧ ((phone_is_new req d ∧ phonenumber row = req_phonenumber req)
               ∨ (¬ phone_is_new req d ∧ phonenumber row = None)))
       ∨ (¬ email_is_new req d ∧ ¬ phone_is_new req d
          ∧ id <$> table d' = id <$> table d)).
Proof.
  intros Hok Hlive Hex _ _. cbv zeta.
  pose proof Hok as (Hpk & _).
  destruct (ultimate_primary_defined req d Hok Hlive Hex) as [u Hhead].
  destruct (allPrimaryContactsIn req d) as [|u0 losers] eqn:Hprim; [done|].
  injection Hhead as ->.
  exists u. split_and!.
  - apply elem_of_allPrimaryContactsIn; [done|]. rewrite Hprim. by left.
  - intros p Hp. apply elem_of_allPrimaryContactsIn in Hp; [|done].
    rewrite Hprim in Hp. apply elem_of_cons in Hp as [->|Hp]; [lia|].
    by apply (ultimate_oldest req d u losers).
  - rewrite (handler_found_primary req d u losers Hprim).
    unfold connected. cbn [snd db].
    destruct (planWrites_table req d (id u) losers)
      as (rows & now & Hrows & -> & _).
    pose proof (relinked_ids _ _ _ _ Hrows) as Hids.
    pose proof (email_is_new_spec req d Hok Hlive) as He.
    pose proof (phone_is_new_spec req d Hok Hlive) as Hp.
    destruct (isNewEmailIn req d) eqn:Hne, (isNewPhoneIn req d) eqn:Hnp;
      cbn [orb].
    + left. split; [left; by apply He|].
      exists rows, (newSecondary req d (id u) now).
      split_and!; try done.
      * left. split; [by apply He|]. simpl. by rewrite Hne.
      * left. split; [by apply Hp|]. simpl. by rewrite Hnp.
    + left. split; [left; by apply He|].
      exists rows, (newSecondary req d (id u) now).
      split_and!; try done.
      * left. split; [by apply He|]. simpl. by rewrite Hne.
      * right. split; [|simpl; by rewrite Hnp].
        intros H%Hp. done.
    + left. split; [right; by apply Hp|].
      exists rows, (newSecondary req d (id u) now).
      split_and!; try done.
      * right. split; [|simpl; by rewrite Hne].
        intros H%He. done.
      * left. split; [by apply Hp|]. simpl. by rewrite Hnp.
    + right. rewrite app_nil_r. split_and!; [| |done].
      * intros H%He. done.
      * intros H%Hp. done.
Qed.

Lemma C3_new_information_decision_witness :
  let d' := db (handler new_phone_request (connected two_clusters)).2 in
  ∃ u,
    involved new_phone_request two_clusters u
    ∧ (∀ p, involved new_phone_request two_clusters p →
         createdat u ≤ createdat p)
    ∧ (((email_is_new new_phone_request two_clusters
         ∨ phone_is_new new_phone_request two_clusters)
        ∧ ∃ rows row,
            table d' ≡ₚ rows ++ [row]
            ∧ id <$> rows = id <$> table two_clusters
            ∧ id row = serial two_clusters + 1
            ∧ linkprecedence row = secondary
            ∧ linkedid row = Some (id u)
            ∧ deletedat row = None
            ∧ ((email_is_new new_phone_request two_clusters
                ∧ email row = req_email new_phone_request)
               ∨ (¬ email_is_new new_phone_request two_clusters
                  ∧ email row = None))
            ∧ ((phone_is_new new_phone_request two_clusters
                ∧ phonenumber row = req_phonenumber new_phone_request)
               ∨ (¬ phone_is_new new_phone_request two_clusters
                  ∧ phonenumber row = None)))
       ∨ (¬ email_is_new new_phone_request two_clusters
          ∧ ¬ phone_is_new new_phone_request two_clusters
          ∧ id <$> table d' = id <$> table two_clusters)).
Proof.
  apply (C3_new_information_decision new_phone_request two_clusters).
  - exact two_clusters_ok.
  - exact two_clusters_live.
  - by vm_compute.
  - fits_columns_ok.
  - by vm_compute.
Defined.

(** ** Soft-deleted rows *)

Lemma filter_live_select (P : Contact → bool) (l : list Contact) :
  (∀ c, P c = true → is_null (deletedat c) = true) →
  filter (λ c, P c) (filter (λ c, is_null (deletedat c)) l)
  = filter (λ c, P c) l.
Proof.
  intros HP. rewrite list_filter_filter. apply list_filter_iff.
  intros c. rewrite !Is_true_true. split; [tauto|]. intros Hc. split; [done|].
  by apply HP.
Qed.

Lemma existingContactsIn_purge req d :
  existingContactsIn req (purge d) = existingContactsIn req d.
Proof.
  unfold existingContactsIn. destruct (_ && _); [done|]. simpl.
  apply filter_live_select. unfold matchesEmailOrPhone.
  by intros c [_ ?]%andb_true_iff.
Qed.

Lemma primaryContactsFromDbIn_purge req d :
  primaryContactsFromDbIn req (purge d) = primaryContactsFromDbIn req d.
Proof.
  unfold primaryContactsFromDbIn. rewrite existingContactsIn_purge. cbv zeta.
  case_bool_decide; [|done]. simpl.
  apply filter_live_select. unfold idAmong. by intros c [_ ?]%andb_true_iff.
Qed.

Lemma allContactsIn_purge req d :
  allContactsIn req (purge d) = allContactsIn req d.
Proof.
  unfold allContactsIn.
  by rewrite existingContactsIn_purge, primaryContactsFromDbIn_purge.
Qed.

Lemma clusterMembers_purge primaryId d :
  clusterMembers primaryId (purge d) = clusterMembers primaryId d.
Proof.
  unfold clusterMembers. simpl. apply filter_live_select.
  unfold linkedToPrimary. by intros c [_ ?]%andb_true_iff.
Qed.

Lemma planWrites_purge req d u losers :
  planWrites req (purge d) u losers = planWrites req d u losers.
Proof.
  unfold planWrites, insertWrites, isNewEmailIn, isNewPhoneIn.
  by rewrite allContactsIn_purge.
Qed.

Lemma filter_live_fmap (f : Contact → Contact) (l : list Contact) :
  (∀ c, deletedat (f c) = deletedat c) →
  filter (λ c, is_null (deletedat c)) (f <$> l)
  = f <$> filter (λ c, is_null (deletedat c)) l.
Proof.
  intros Hf. induction l as [|c l IH]; [done|]. csimpl.
  rewrite !filter_cons, IH, Hf. by destruct (decide _).
Qed.

Lemma purge_demotionWrites u losers d :
  purge (apply_writes (demotionWrites u losers) d)
  = apply_writes (demotionWrites u losers) (purge d).
Proof.
  revert d. induction losers as [|p losers IH]; intros d; [done|].
  rewrite demotionWrites_cons. simpl apply_writes.
  fold (apply_writes (demotionWrites u losers)).
  rewrite IH. f_equal. unfold purge. simpl. f_equal.
  rewrite filter_live_fmap by (intros c; by destruct (sql_eq _ _)).
  by rewrite filter_live_fmap by (intros c; by destruct (bool_decide _)).
Qed.

Lemma purge_planWrites req d0 u losers d :
  purge (apply_writes (planWrites req d0 u losers) d)
  = apply_writes (planWrites req d0 u losers) (purge d).
Proof.
  unfold planWrites. rewrite !apply_writes_app, <- purge_demotionWrites.
  unfold insertWrites. destruct (_ || _); [|done].
  unfold apply_writes at 1 3. simpl foldl.
  unfold purge. simpl. f_equal. by rewrite filter_app.
Qed.

(** The answer does not depend on the soft-deleted rows. *)
Lemma handler_purge req d :
  (handler req (connected (purge d))).1 = (handler req (connected d)).1.
Proof.
  unfold handler. rewrite !identify_connected.
  unfold allPrimaryContactsIn. rewrite existingContactsIn_purge, allContactsIn_purge.
  case_bool_decide; [done|].
  destruct (allPrimaryContactsOf (allContactsIn req d)) as [|u losers]; [done|].
  cbv zeta. rewrite planWrites_purge, <- purge_planWrites, clusterMembers_purge.
  by destruct (buildResponse _).
Qed.

Lemma buildResponse_sources contacts resp :
  buildResponse contacts = inr resp →
  primaryContactId resp ∈ id <$> contacts
  ∧ (∀ i, i ∈ secondaryContactIds resp → i ∈ id <$> contacts)
  ∧ (∀ e, e ∈ emails resp → Some e ∈ email <$> contacts)
  ∧ (∀ p, p ∈ phoneNumbers resp → Some p ∈ phonenumber <$> contacts).
Proof.
  rewrite buildResponse_spec.
  destruct (filter (λ c, is_primary c) contacts) as [|p others] eqn:Hf; [done|].
  intros [= <-]. simpl. split_and!.
  - apply list_elem_of_fmap_2.
    assert (p ∈ filter (λ c, is_primary c) contacts) as Hp by (rewrite Hf; by left).
    by apply list_elem_of_filter in Hp as [_ ?].
  - intros i (c & -> & Hc)%list_elem_of_fmap.
    apply list_elem_of_filter in Hc as [_ Hc]. by apply list_elem_of_fmap_2.
  - intros e (c & Hc & He)%elem_of_set_spread%list_elem_of_omap.
    rewrite <- He. by apply list_elem_of_fmap_2.
  - intros ph (c & Hc & Hph)%elem_of_set_spread%list_elem_of_omap.
    rewrite <- Hph. by apply list_elem_of_fmap_2.
Qed.

Lemma clusterMembers_live primaryId d c :
  c ∈ clusterMembers primaryId d →
  c ∈ filter (λ c, is_null (deletedat c)) (table d).
Proof.
  intros (Hin & Hlive & _)%elem_of_clusterMembers.
  apply list_elem_of_filter. by rewrite Is_true_true, is_null_None.
Qed.

(** C7: a soft-deleted row is never among the matched contacts, the answer
    is the same as on the table without its soft-deleted rows, and every
    id, email and phone number of a consolidated response is that of a row
    that is not deleted. *)
Theorem C7_deleted_contacts_are_excluded req d :
  (∀ c, c ∈ existingContactsIn req d → deletedat c = None)
  ∧ (handler req (connected (purge d))).1 = (handler req (connected d)).1
  ∧ match (handler req (connected d)).1 with
    | Json200 resp =>
        let live := table (purge (db (handler req (connected d)).2)) in
        primaryContactId resp ∈ id <$> live
        ∧ (∀ i, i ∈ secondaryContactIds resp → i ∈ id <$> live)
        ∧ (∀ e, e ∈ emails resp → Some e ∈ email <$> live)
        ∧ (∀ p, p ∈ phoneNumbers resp → Some p ∈ phonenumber <$> live)
    | Error500 => True
    end.
Proof.
  split_and!.
  - intros c Hc. apply elem_of_existingContactsIn in Hc. tauto.
  - apply handler_purge.
  - unfold handler. rewrite identify_connected. case_bool_decide as Hex.
    + simpl. rewrite filter_app, !fmap_app. simpl.
      split_and!; [set_solver|set_solver| |].
      * intros e He. apply elem_of_app. right.
        destruct (truthy (req_email req)); [|by apply elem_of_nil in He].
        destruct (req_email req) as [s|]; [|by apply elem_of_nil in He].
        apply list_elem_of_singleton in He as ->. by left.
      * intros p Hp. apply elem_of_app. right.
        destruct (truthy (req_phonenumber req)); [|by apply elem_of_nil in Hp].
        destruct (req_phonenumber req) as [s|]; [|by apply elem_of_nil in Hp].
        apply list_elem_of_singleton in Hp as ->. by left.
    + destruct (allPrimaryContactsIn req d) as [|u losers]; [done|]. cbv zeta.
      destruct (buildResponse _) as [e|resp] eqn:Hresp; [done|]. simpl.
      destruct (buildResponse_sources _ _ Hresp) as (Hp & Hs & He & Hph).
      assert (∀ {A} (f : Contact → A) x,
        x ∈ f <$> clusterMembers (id u)
                    (apply_writes (planWrites req d (id u) losers) d) →
        x ∈ f <$> filter (λ c, is_null (deletedat c))
                    (table (apply_writes (planWrites req d (id u) losers) d)))
        as Hlive.
      { intros A f x (c & -> & Hc)%list_elem_of_fmap.
        apply list_elem_of_fmap_2. by eapply clusterMembers_live. }
      split_and!; [by apply Hlive|..]; intros x Hx; apply Hlive; auto.
Qed.

(** ** Idempotence *)






Lemma elem_of_existingContactsIn_iff req d c :
  c ∈ existingContactsIn req d
  ↔ (truthy (req_email req) || truthy (req_phonenumber req)) = true
    ∧ c ∈ table d ∧ deletedat c = None
    ∧ (sql_eq (email c) (req_email req)
       || sql_eq (phonenumber c) (req_phonenumber req)) = true.
Proof.
  unfold existingContactsIn.
  destruct (negb (truthy (req_email req)) && negb (truthy (req_phonenumber req)))
    eqn:Hnone.
  - split; [by intros ?%elem_of_nil|]. intros [Hsome _].
    destruct (truthy (req_email req)), (truthy (req_phonenumber req)); done.
  - rewrite list_elem_of_filter. unfold matchesEmailOrPhone.
    rewrite Is_true_true, andb_true_iff, is_null_None.
    assert ((truthy (req_email req) || truthy (req_phonenumber req)) = true)
      by (by destruct (truthy (req_email req)), (truthy (req_phonenumber req))).
    tauto.
Qed.

Lemma sql_eq_refl_truthy (v : option string) :
  truthy v = true → sql_eq v v = true.
Proof. destruct v; [|done]. intros _. simpl. by apply bool_decide_eq_true. Qed.

Lemma after_no_match req d :
  store_ok d →
  (truthy (req_email req) || truthy (req_phonenumber req)) = true →
  existingContactsIn req d = [] →
  fully_matches req
    (insert (req_email req) (req_phonenumber req) None primary d).2
    (insert (req_email req) (req_phonenumber req) None primary d).1.
Proof.
  intros Hok Htruthy Hex.
  set (d1 := (insert (req_email req) (req_phonenumber req) None primary d).2).
  set (P := (insert (req_email req) (req_phonenumber req) None primary d).1).
  assert (P ∈ table d1) as HP by (apply elem_of_app; right; by left).
  assert (P ∈ existingContactsIn req d1) as HPex.
  { apply elem_of_existingContactsIn_iff. split_and!; [done..|]. simpl.
    apply orb_true_iff in Htruthy as [Ht|Ht];
      rewrite (sql_eq_refl_truthy _ Ht); [done|by rewrite orb_true_r]. }
  split_and!.
  - split_and!; [done..|]. exists P. auto.
  - intros p (Hp & Hlive & Hprec & c & Hc & Hcp).
    apply elem_of_existingContactsIn_iff in Hc as (_ & Hc & Hclive & Hmatch).
    assert (c = P) as ->.
    { apply elem_of_app in Hc as [Hc|Hc]; [|by apply list_elem_of_singleton in Hc].
      assert (c ∈ existingContactsIn req d) as Hin
        by (by apply elem_of_existingContactsIn_iff).
      rewrite Hex in Hin. by apply elem_of_nil in Hin. }
    destruct Hcp as [?|[? _]]; done.
  - split; intros _; exists P; done.
Qed.

Lemma loser_is_primary req d u losers c :
  allPrimaryContactsIn req d = u :: losers →
  NoDup (id <$> table d) → c ∈ table d → id c ∈ id <$> losers →
  linkprecedence c = primary.
Proof.
  intros Hprim Hnd Hc (p & Hid & Hp)%list_elem_of_fmap.
  destruct (loser_in_table req d u losers Hprim p Hp) as (Hin & _ & Hprec).
  by rewrite (id_inj_table (table d) c p Hnd Hc Hin Hid).
Qed.

Lemma after_found_primary req d u losers :
  store_ok d →
  allPrimaryContactsIn req d = u :: losers →
  let d1 := apply_writes (planWrites req d (id u) losers) d in
  ∃ u', id u' = id u ∧ fully_matches req d1 u'.
Proof.
  intros Hok Hprim d1.
  pose proof (store_ok_found_primary req d u losers Hprim Hok) as Hok1.
  fold d1 in Hok1.
  destruct Hok as (Hpk & Hfk & Hchain & Hunl & Hlinked).
  pose proof Hpk as (Hnd & _ & Hserial).
  destruct Hok1 as ((Hnd1 & _) & _).
  destruct (planWrites_table req d (id u) losers)
    as (rows & now & Hrows & Htable & _). fold d1 in Htable.
  destruct (ultimate_in_table req d u losers Hprim) as (Hu & Hulive & Huprim).
  pose proof (ultimate_not_loser req d u losers Hprim) as Hul.
  destruct (allPrimaryContactsIn_cons_reads req d u losers Hprim)
    as (Htruthy & _ & _).
  assert ((truthy (req_email req) || truthy (req_phonenumber req)) = true)
    as Htruthy'.
  { destruct (truthy (req_email req)), (truthy (req_phonenumber req)); done. }
  (* rows of [d] and their images in [d1] *)
  assert (∀ c, c ∈ table d → ∃ c', c' ∈ table d1
            ∧ relinked (id u) (id <$> losers) c c') as Himage.
  { intros c Hc. destruct (Forall2_elem_of_l _ _ _ _ Hrows Hc) as (c' & ? & ?).
    exists c'. split; [|done]. rewrite Htable. apply elem_of_app. by left. }
  assert (∀ c c', c ∈ table d → c' ∈ table d1 →
            relinked (id u) (id <$> losers) c c' →
            c ∈ existingContactsIn req d ↔ c' ∈ existingContactsIn req d1)
    as Hmatched.
  { intros c c' Hc Hc' (_ & He & Hp & _ & Hdel & _).
    rewrite !elem_of_existingContactsIn_iff, He, Hp, Hdel. tauto. }
  destruct (Himage u Hu) as (u' & Hu' & Hrelu).
  pose proof Hrelu as (Hidu & _ & _ & _ & Hdelu & Hlinku).
  rewrite decide_False in Hlinku by done. destruct Hlinku as [Hprecu _].
  assert (∀ p, involved req d p → id p ∉ id <$> losers → p = u) as Hwinner.
  { intros p Hp Hnl. apply elem_of_allPrimaryContactsIn in Hp; [|done].
    rewrite Hprim in Hp. apply elem_of_cons in Hp as [?|Hp]; [done|].
    destruct Hnl. by apply list_elem_of_fmap_2. }
  exists u'. split; [done|]. split_and!.
  - (* the ultimate primary is still matched, or linked to a matched row *)
    split_and!; [done|congruence|congruence|].
    assert (involved req d u) as (_ & _ & _ & c & Hc & Hcu).
    { apply elem_of_allPrimaryContactsIn; [done|]. rewrite Hprim. by left. }
    destruct (elem_of_existingContactsIn _ _ _ Hc) as (Hcin & _ & _).
    destruct Hcu as [->|[Hsec Hlink]].
    + exists u'. split; [by apply (Hmatched u u')|by left].
    + destruct (Himage c Hcin) as (c' & Hc' & Hrel).
      exists c'. split; [by apply (Hmatched c c')|]. right.
      destruct Hrel as (_ & _ & _ & _ & _ & Hrel).
      destruct (decide (id c ∈ id <$> losers)) as [Hin|Hin].
      { pose proof (loser_is_primary req d u losers c Hprim Hnd Hcin Hin).
        congruence. }
      destruct Hrel as [-> ->]. rewrite Hlink, Hidu.
      split; [done|]. by destruct (decide (id u ∈ id <$> losers)).
  - (* and it is the only candidate *)
    intros p' (Hp' & Hlive' & Hprec' & c' & Hc' & Hcp').
    apply (id_inj_table (table d1)); [done..|]. rewrite Hidu.
    (* the origin of [p'] *)
    assert (∃ p0, p0 ∈ table d ∧ relinked (id u) (id <$> losers) p0 p')
      as (p0 & Hp0 & Hrelp).
    { rewrite Htable, elem_of_app in Hp'. destruct Hp' as [Hp'|Hp'].
      - by apply (Forall2_elem_of_r _ _ _ _ Hrows).
      - destruct (isNewEmailIn req d || isNewPhoneIn req d);
          [|by apply elem_of_nil in Hp'].
        by apply list_elem_of_singleton in Hp' as ->. }
    pose proof Hrelp as (Hidp & _ & _ & _ & Hdelp & Hlinkp).
    destruct (decide (id p0 ∈ id <$> losers)) as [?|Hp0nl];
      [destruct Hlinkp; congruence|].
    destruct Hlinkp as [Hprecp _].
    assert (p0 ∈ table d ∧ deletedat p0 = None ∧ linkprecedence p0 = primary)
      as Hp0ok by (split_and!; congruence).
    (* the origin of the matched row *)
    destruct (elem_of_existingContactsIn _ _ _ Hc') as (Hc'in & _ & _).
    rewrite Htable, elem_of_app in Hc'in. destruct Hc'in as [Hc'in|Hc'in].
    + destruct (Forall2_elem_of_r _ _ _ _ Hrows Hc'in) as (c0 & Hc0 & Hrelc).
      assert (c0 ∈ existingContactsIn req d) as Hc0ex.
      { apply (Hmatched c0 c'); [done| |done..].
        rewrite Htable. apply elem_of_app. by left. }
      destruct Hcp' as [->|[Hsec' Hlink']].
      * assert (c0 = p0) as ->.
        { apply (id_inj_table (table d)); [done..|].
          destruct Hrelc as (? & _). congruence. }
        rewrite Hidp. f_equal. apply Hwinner; [|done].
        split_and!; [tauto..|]. exists p0. auto.
      * destruct (relinked_link_origin _ _ _ _ _ Hrelc Hlink') as [?|Hlink0];
          [done|].
        destruct Hrelc as (_ & _ & _ & _ & _ & Hrelc).
        destruct (decide (id c0 ∈ id <$> losers));
          [destruct Hrelc; congruence|].
        destruct Hrelc as [Hprec0 _].
        rewrite Hidp. f_equal. apply Hwinner; [|done].
        split_and!; [tauto..|]. exists c0. split; [done|]. right.
        split; congruence.
    + destruct (isNewEmailIn req d || isNewPhoneIn req d);
        [|by apply elem_of_nil in Hc'in].
      apply list_elem_of_singleton in Hc'in as ->.
      destruct Hcp' as [<-|[_ Hlink']]; [done|]. simpl in Hlink'. congruence.
  - (* both values are held *)
    split; intros Ht.
    + destruct (isNewEmailIn req d) eqn:Hnew.
      * exists (newSecondary req d (id u) now). split_and!.
        -- rewrite Htable. apply elem_of_app. right. by left.
        -- done.
        -- simpl. by rewrite Hnew.
      * unfold isNewEmailIn, isNew in Hnew. rewrite Ht in Hnew. simpl in Hnew.
        apply negb_false_iff, bool_decide_eq_true in Hnew.
        apply elem_of_set_spread, list_elem_of_omap in Hnew as (c & Hc & Hemail).
        destruct (allContactsIn_table _ _ _ Hc) as [Hcin Hclive].
        destruct (Himage c Hcin) as (c' & Hc' & _ & He & _ & _ & Hdel & _).
        exists c'. split_and!; [done|congruence|].
        rewrite He, Hemail. by destruct (req_email req).
    + destruct (isNewPhoneIn req d) eqn:Hnew.
      * exists (newSecondary req d (id u) now). split_and!.
        -- rewrite Htable, orb_true_r. apply elem_of_app. right. by left.
        -- done.
        -- simpl. by rewrite Hnew.
      * unfold isNewPhoneIn, isNew in Hnew. rewrite Ht in Hnew. simpl in Hnew.
        apply negb_false_iff, bool_decide_eq_true in Hnew.
        apply elem_of_set_spread, list_elem_of_omap in Hnew as (c & Hc & Hphone).
        destruct (allContactsIn_table _ _ _ Hc) as [Hcin Hclive].
        destruct (Himage c Hcin) as (c' & Hc' & _ & _ & Hp & _ & Hdel & _).
        exists c'. split_and!; [done|congruence|].
        rewrite Hp, Hphone. by destruct (req_phonenumber req).
Qed.

Lemma filter_none (P : Contact → bool) (l : list Contact) :
  (∀ c, c ∈ l → P c = false) → filter (λ c, P c) l = [].
Proof.
  induction l as [|c l IH]; [done|]. intros Hall.
  rewrite filter_cons_False.
  - apply IH. intros c' Hc'. apply Hall. by right.
  - rewrite (Hall c) by (by left). by intros [].
Qed.



(** C5 fails when a submitted field is the empty string: the first
    submission takes the no-match path, whose answer drops falsy values,
    the second one matches the row just created and writes nothing, yet
    its answer, built by [getAllEmails], lists the empty email. *)
Theorem C5_blank_email_answer_changes :
  handler blank_email_request (connected no_contacts)
  = (Json200 (mkConsolidated 1 [] ["123"%string] []),
     connected
       (mkDb [mkContact 1 (Some "123"%string) (Some EmptyString) None primary
                1000 1000 None] 1 1001))
  ∧ handler blank_email_request
      (handler blank_email_request (connected no_contacts)).2
    = (Json200 (mkConsolidated 1 [EmptyString] ["123"%string] []),
       connected
         (mkDb [mkContact 1 (Some "123"%string) (Some EmptyString) None primary
                  1000 1000 None] 1 1001)).
Proof. split; reflexivity. Qed.

(** * Further properties of the code *)

(** ** Collecting emails and phone numbers *)

(** X1: [getAllEmails] and [getAllPhones] return the values held by the
    contacts, each once: a value is listed exactly when some contact holds
    it ([null] is dropped, the empty string is kept), and no value is
    listed twice. *)
Theorem X1_getAll_is_the_set_of_values contacts :
  NoDup (getAllEmails contacts)
  ∧ (∀ e, e ∈ getAllEmails contacts ↔ ∃ c, c ∈ contacts ∧ email c = Some e)
  ∧ NoDup (getAllPhones contacts)
  ∧ (∀ p, p ∈ getAllPhones contacts
          ↔ ∃ c, c ∈ contacts ∧ phonenumber c = Some p).
Proof.
  unfold getAllEmails, getAllPhones. split_and!.
  - apply NoDup_set_spread.
  - intros e. by rewrite elem_of_set_spread, list_elem_of_omap.
  - apply NoDup_set_spread.
  - intros p. by rewrite elem_of_set_spread, list_elem_of_omap.
Qed.

Lemma filter_all {A} (P : A → Prop) `{∀ x, Decision (P x)} (l : list A) :
  (∀ x, x ∈ l → P x) → filter P l = l.
Proof.
  induction l as [|x l IH]; [done|]. intros Hall.
  rewrite filter_cons_True by (apply Hall; by left).
  f_equal. apply IH. intros y Hy. apply Hall. by right.
Qed.

Lemma set_spread_app {A} `{EqDecision A} (xs ys : list A) :
  set_spread (xs ++ ys)
  = set_spread xs ++ filter (λ y, y ∉ xs) (set_spread ys).
Proof.
  induction xs as [|x xs IH]; simpl.
  - symmetry. apply filter_all. intros y _. apply not_elem_of_nil.
  - f_equal. rewrite IH, filter_app. f_equal.
    rewrite list_filter_filter. apply list_filter_iff.
    intros y. rewrite not_elem_of_cons. tauto.
Qed.

(** X2: the values of a longer membership are those of the shorter one, in
    the same order, followed by the values that are new: adding contacts at
    the end never reorders or removes what was listed. *)
Theorem X2_getAll_of_appended_contacts contacts more :
  getAllEmails (contacts ++ more)
  = getAllEmails contacts
    ++ filter (λ e, e ∉ getAllEmails contacts) (getAllEmails more)
  ∧ getAllPhones (contacts ++ more)
    = getAllPhones contacts
      ++ filter (λ p, p ∉ getAllPhones contacts) (getAllPhones more).
Proof.
  unfold getAllEmails, getAllPhones. rewrite !omap_app, !set_spread_app.
  split; f_equal; apply list_filter_iff; intros x;
    by rewrite elem_of_set_spread.
Qed.

(** ** The statements, one by one *)

Lemma matchesEmailOrPhone_spec e ph c :
  matchesEmailOrPhone e ph c = true
  ↔ deletedat c = None
    ∧ ((is_Some e ∧ email c = e) ∨ (is_Some ph ∧ phonenumber c = ph)).
Proof.
  unfold matchesEmailOrPhone.
  rewrite andb_true_iff, orb_true_iff, is_null_None.
  assert (∀ col param : option string,
            sql_eq col param = true ↔ is_Some param ∧ col = param) as Heq.
  { intros [x|] [y|]; simpl.
    - rewrite bool_decide_eq_true. split.
      + intros ->. split; [by eexists|done].
      + by intros [_ [= ->]].
    - split; [done|]. by intros [[? [=]] _].
    - split; [done|]. by intros [_ [=]].
    - split; [done|]. by intros [[? [=]] _]. }
  rewrite !Heq. tauto.
Qed.

(** X3: the lookup.  With neither field it answers the empty list without
    a statement, whatever the state of the pool.  Otherwise it needs the
    pool, and finds the rows that are not deleted and whose email or phone
    number equals the submitted one; an absent value equals nothing, not
    even [NULL], while an empty string is compared like any other. *)
Theorem X3_lookup_finds_the_live_carriers e ph d o :
  findContactsByEmailOrPhone e ph (mkPool d o)
  = if negb (truthy e) && negb (truthy ph) then (inr [], mkPool d o)
    else match o with
         | Some O => (inl QueryError, mkPool d o)
         | _ =>
             (inr (filter (λ c, deletedat c = None
                                ∧ ((is_Some e ∧ email c = e)
                                   ∨ (is_Some ph ∧ phonenumber c = ph)))
                     (table d)),
              mkPool d (spend o))
         end.
Proof.
  unfold findContactsByEmailOrPhone. destruct (_ && _); [done|].
  destruct o as [[|k]|]; [done| |];
    (rewrite pool_query_ok by done; unfold select; simpl; do 2 f_equal;
     apply list_filter_iff; intros c;
     by rewrite Is_true_true, matchesEmailOrPhone_spec).
Qed.

(** X4: a contact that was created is found.  When the table accepts the
    row, [createContact] adds a row with the next id of the sequence and
    no [deletedat]; the lookup for the same email and phone then returns
    what it returned before and the new row, and so does the cluster query
    of the primary the row is linked to. *)
Theorem X4_created_contact_is_found e ph l prec d :
  (truthy e || truthy ph) = true →
  accepted e ph l d →
  ∃ row d1 found found1,
    createContact e ph l prec (connected d) = (inr row, connected d1)
    ∧ row = mkContact (serial d + 1) ph e l prec (clock d) (clock d) None
    ∧ table d1 ≡ₚ table d ++ [row]
    ∧ findContactsByEmailOrPhone e ph (connected d) = (inr found, connected d)
    ∧ findContactsByEmailOrPhone e ph (connected d1)
      = (inr found1, connected d1)
    ∧ found1 ≡ₚ found ++ [row]
    ∧ match l with
      | Some primaryId =>
          ∃ members,
            (getAllContactsLinkedToPrimary primaryId (connected d1)).1
            = inr members
            ∧ members ≡ₚ clusterMembers primaryId d ++ [row]
      | None => True
      end.
Proof.
  intros Htruthy _.
  assert (negb (truthy e) && negb (truthy ph) = false) as Hsome
    by (by destruct (truthy e), (truthy ph)).
  assert (∀ d0, findContactsByEmailOrPhone e ph (connected d0)
                = (inr (filter (λ c, matchesEmailOrPhone e ph c) (table d0)),
                   connected d0)) as Hfind.
  { intros d0. unfold findContactsByEmailOrPhone, connected.
    rewrite Hsome. by rewrite pool_query_ok. }
  eexists _, _, _, _. split_and!.
  - unfold createContact, connected. by rewrite pool_query_ok.
  - done.
  - done.
  - apply Hfind.
  - apply Hfind.
  - cbn [snd insert table]. rewrite filter_app.
    rewrite (filter_cons_True _ (mkContact _ _ _ _ _ _ _ _)); [done|].
    apply Is_true_true, matchesEmailOrPhone_spec. split; [done|]. simpl.
    destruct e as [e|], ph as [ph|]; try done; eauto.
  - destruct l as [primaryId|]; [|done].
    unfold getAllContactsLinkedToPrimary, connected.
    rewrite pool_query_ok by done. unfold select, clusterMembers.
    cbn [fst snd insert table]. eexists. split; [done|].
    rewrite filter_app.
    rewrite (filter_cons_True _ (mkContact _ _ _ _ _ _ _ _)); [done|].
    apply Is_true_true. unfold linkedToPrimary. simpl.
    rewrite (bool_decide_true (primaryId = primaryId)) by done.
    by rewrite orb_true_r.
Qed.

Lemma X4_created_contact_is_found_witness :
  ∃ row d1 found found1,
    createContact (Some "m@x.com"%string) None (Some 2) secondary
      (connected two_clusters) = (inr row, connected d1)
    ∧ row = mkContact (serial two_clusters + 1) None (Some "m@x.com"%string)
              (Some 2) secondary (clock two_clusters) (clock two_clusters)
              None
    ∧ table d1 ≡ₚ table two_clusters ++ [row]
    ∧ findContactsByEmailOrPhone (Some "m@x.com"%string) None
        (connected two_clusters) = (inr found, connected two_clusters)
    ∧ findContactsByEmailOrPhone (Some "m@x.com"%string) None (connected d1)
      = (inr found1, connected d1)
    ∧ found1 ≡ₚ found ++ [row]
    ∧ ∃ members,
        (getAllContactsLinkedToPrimary 2 (connected d1)).1 = inr members
        ∧ members ≡ₚ clusterMembers 2 two_clusters ++ [row].
Proof.
  apply (X4_created_contact_is_found (Some "m@x.com"%string) None (Some 2)
           secondary two_clusters).
  - reflexivity.
  - split_and!.
    + fits_columns_ok.
    + by vm_compute.
    + intros c Hc. each_row Hc; done.
    + intros l [= <-]. exists marty. split; [set_solver|done].
Defined.

Lemma fmap_unchanged (f : Contact → Contact) (l : list Contact) :
  (∀ c, c ∈ l → f c = c) → f <$> l = l.
Proof.
  intros Hf. induction l as [|c l IH]; [done|]. csimpl.
  rewrite Hf by (by left). f_equal. apply IH. intros c' Hc'. apply Hf. by right.
Qed.

(** X5: [updateContact] on an id that no row has is not an error: the
    statement succeeds and every row is as it was. *)
Theorem X5_update_of_a_missing_id id_ l prec d :
  (∀ c, c ∈ table d → id c ≠ id_) →
  updateContact id_ l prec (connected d)
  = (inr tt, connected (mkDb (table d) (serial d) (clock d + 1))).
Proof.
  intros Hmissing. unfold updateContact, connected.
  rewrite pool_query_ok by done. unfold demoteStmt, update. simpl.
  rewrite fmap_unchanged; [done|].
  intros c Hc. by rewrite bool_decide_false by (by apply Hmissing).
Qed.

Lemma X5_update_of_a_missing_id_witness :
  updateContact 7 (Some 1) secondary (connected two_clusters)
  = (inr tt, connected (mkDb (table two_clusters) (serial two_clusters)
                          (clock two_clusters + 1))).
Proof.
  apply (X5_update_of_a_missing_id 7 (Some 1) secondary two_clusters).
  intros c Hc. each_row Hc; done.
Defined.



Lemma linkedToAny_spec primaryIds c :
  linkedToAny primaryIds c = true
  ↔ ∃ primaryId, primaryId ∈ primaryIds ∧ linkedToPrimary primaryId c = true.
Proof.
  unfold linkedToAny, linkedToPrimary.
  rewrite andb_true_iff, orb_true_iff, bool_decide_eq_true. split.
  - intros [[Hl|Hid] Hlive].
    + destruct (linkedid c) as [l|] eqn:Heq; [|done].
      apply bool_decide_eq_true in Hl. exists l. split; [done|].
      rewrite Hlive, andb_true_r, orb_true_iff. right. simpl.
      by apply bool_decide_eq_true.
    + exists (id c). split; [done|].
      by rewrite Hlive, andb_true_r, bool_decide_true.
  - intros (primaryId & Hin & [[Hid|Hl]%orb_true_iff Hlive]%andb_true_iff).
    + apply bool_decide_eq_true in Hid. subst. auto.
    + apply sql_eq_Some in Hl. rewrite Hl. split; [|done]. left.
      by apply bool_decide_eq_true.
Qed.

(** X7: [getAllLinkedContacts].  When none of the contacts passed in is a
    primary it hands them back without a statement, whatever the state of
    the pool.  Otherwise it reads the table and returns, in table order,
    the rows that belong to the cluster of one of those primaries, as
    [getAllContactsLinkedToPrimary] selects it. *)
Theorem X7_getAllLinkedContacts_gathers_the_clusters contacts d :
  match filter (λ c, is_primary c) contacts with
  | [] => ∀ p, getAllLinkedContacts contacts p = (inr contacts, p)
  | _ :: _ =>
      ∃ rows,
        getAllLinkedContacts contacts (connected d) = (inr rows, connected d)
        ∧ rows `sublist_of` table d
        ∧ ∀ c, c ∈ rows
               ↔ ∃ p, p ∈ contacts ∧ linkprecedence p = primary
                      ∧ c ∈ clusterMembers (id p) d
  end.
Proof.
  unfold getAllLinkedContacts. cbv zeta.
  destruct (filter (λ c, is_primary c) contacts) as [|p0 ps] eqn:Hf; [done|].
  rewrite bool_decide_false by done. unfold connected.
  rewrite pool_query_ok by done. eexists. split_and!; [done|..].
  - apply sublist_filter.
  - intros c. cbn [fst select]. rewrite list_elem_of_filter, Is_true_true.
    rewrite linkedToAny_spec. unfold clusterMembers.
    setoid_rewrite list_elem_of_filter. setoid_rewrite Is_true_true.
    rewrite <- Hf. split.
    + intros [(i & (p & -> & [Hp Hin]%list_elem_of_filter)%list_elem_of_fmap & Hl) Hc].
      exists p. split_and!; [done| |done..].
      unfold is_primary in Hp. by rewrite Is_true_true, bool_decide_eq_true in Hp.
    + intros (p & Hin & Hp & Hl & Hc). split; [|done].
      exists (id p). split; [|done].
      apply list_elem_of_fmap_2, list_elem_of_filter. split; [|done].
      unfold is_primary. by rewrite Is_true_true, bool_decide_eq_true.
Qed.

(** ** Sorting and ties *)

Lemma filter_none_prop {A} (P : A → Prop) `{∀ x, Decision (P x)}
    (l : list A) :
  (∀ x, x ∈ l → ¬ P x) → filter P l = [].
Proof.
  induction l as [|x l IH]; [done|]. intros Hall.
  rewrite filter_cons_False by (apply Hall; by left).
  apply IH. intros y Hy. apply Hall. by right.
Qed.

Lemma sort_insert_split c l :
  ∃ l1 l2, l = l1 ++ l2 ∧ sort_insert c l = l1 ++ c :: l2
           ∧ ∀ d, d ∈ l1 → createdat d < createdat c.
Proof.
  induction l as [|d l (l1 & l2 & Hl & Hins & Holder)]; simpl.
  - exists [], []. split_and!; [done..|]. by intros d ?%elem_of_nil.
  - destruct (Z.leb_spec (createdat c) (createdat d)) as [Hle|Hgt].
    + exists [], (d :: l). split_and!; [done..|]. by intros d' ?%elem_of_nil.
    + exists (d :: l1), l2. rewrite Hl at 1. rewrite Hins.
      split_and!; [done..|].
      intros d' [->|Hd']%elem_of_cons; [lia|by apply Holder].
Qed.

Lemma sort_by_createdat_stable l t :
  filter (λ c, createdat c = t) (sort_by_createdat l)
  = filter (λ c, createdat c = t) l.
Proof.
  induction l as [|c l IH]; [done|]. simpl.
  destruct (sort_insert_split c (sort_by_createdat l))
    as (l1 & l2 & Hl & -> & Holder).
  rewrite Hl in IH. rewrite filter_app in IH |- *.
  rewrite !filter_cons. destruct (decide (createdat c = t)) as [Ht|Ht].
  - rewrite <- IH. rewrite (filter_none_prop _ l1); [done|].
    intros d Hd. specialize (Holder d Hd). lia.
  - done.
Qed.

(** X8: the sort by [createdat] rearranges the list, puts no contact
    before an older one, and is stable: contacts created at the same time
    keep the order they had. *)
Theorem X8_sort_is_stable l :
  sort_by_createdat l ≡ₚ l
  ∧ StronglySorted older_or_same (sort_by_createdat l)
  ∧ ∀ t, filter (λ c, createdat c = t) (sort_by_createdat l)
         = filter (λ c, createdat c = t) l.
Proof.
  split_and!.
  - apply sort_by_createdat_perm.
  - apply sort_by_createdat_sorted.
  - apply sort_by_createdat_stable.
Qed.

Lemma filter_head_split {A} (P : A → Prop) `{∀ x, Decision (P x)}
    (l : list A) x r :
  filter P l = x :: r →
  ∃ l1 l2, l = l1 ++ x :: l2 ∧ ∀ y, y ∈ l1 → ¬ P y.
Proof.
  induction l as [|y l IH]; [done|]. rewrite filter_cons.
  destruct (decide (P y)) as [Hy|Hy].
  - intros [= -> _]. exists [], l. split; [done|]. by intros y ?%elem_of_nil.
  - intros (l1 & l2 & -> & Hl1)%IH. exists (y :: l1), l2. split; [done|].
    intros z [->|Hz]%elem_of_cons; [done|by apply Hl1].
Qed.

(** X9: ties.  The ultimate primary is the first of the oldest candidate
    primaries in the order of [allContacts]: every primary before it there
    is strictly younger, every primary after it is not older. *)
Theorem X9_first_of_the_oldest_wins req d u losers :
  allPrimaryContactsIn req d = u :: losers →
  ∃ before after,
    filter (λ c, is_primary c) (allContactsIn req d) = before ++ u :: after
    ∧ (∀ c, c ∈ before → createdat u < createdat c)
    ∧ (∀ c, c ∈ after → createdat u ≤ createdat c).
Proof.
  unfold allPrimaryContactsIn, allPrimaryContactsOf. intros Hsort.
  set (l := filter (λ c, is_primary c) (allContactsIn req d)) in *.
  pose proof (sort_by_createdat_head l u losers Hsort) as Hmin.
  pose proof (sort_by_createdat_stable l (createdat u)) as Hstable.
  rewrite Hsort, filter_cons_True in Hstable by done.
  symmetry in Hstable.
  destruct (filter_head_split _ _ _ _ Hstable) as (before & after & Hl & Hbefore).
  exists before, after. split_and!; [done| |].
  - intros c Hc.
    assert (createdat u ≤ createdat c)
      by (apply Hmin; rewrite Hl, elem_of_app; by left).
    specialize (Hbefore c Hc). simpl in Hbefore. lia.
  - intros c Hc. apply Hmin. rewrite Hl, elem_of_app. right. by right.
Qed.

Lemma X9_first_of_the_oldest_wins_witness :
  ∃ before after,
    filter (λ c, is_primary c) (allContactsIn link_request two_clusters)
    = before ++ doc :: after
    ∧ (∀ c, c ∈ before → createdat doc < createdat c)
    ∧ (∀ c, c ∈ after → createdat doc ≤ createdat c).
Proof.
  apply (X9_first_of_the_oldest_wins link_request two_clusters doc [marty]).
  reflexivity.
Defined.

Lemma map_set_known (m : list (Z * Contact)) c :
  id c ∈ m.*1 → (∀ x, x ∈ m → x.1 = id c → x.2 = c) →
  map_set m (id c) c = m.
Proof.
  induction m as [|[k v] m IH]; [by intros ?%elem_of_nil|]. csimpl.
  intros Hin Hsame. destruct (decide (k = id c)) as [->|Hk].
  - rewrite bool_decide_true by done.
    by rewrite <- (Hsame (id c, v)) by (by left || done).
  - rewrite bool_decide_false by done. f_equal. apply IH.
    + apply elem_of_cons in Hin as [?|?]; [congruence|done].
    + intros x Hx. apply Hsame. by right.
Qed.

Lemma map_set_unknown (m : list (Z * Contact)) k v :
  k ∉ m.*1 → map_set m k v = m ++ [(k, v)].
Proof.
  induction m as [|[k' v'] m IH]; [done|]. csimpl.
  rewrite not_elem_of_cons. intros [Hne Hin].
  rewrite bool_decide_false by done. by rewrite IH.
Qed.

Lemma filter_ext_in {A} (P Q : A → Prop) `{∀ x, Decision (P x)}
    `{∀ x, Decision (Q x)} (l : list A) :
  (∀ x, x ∈ l → P x ↔ Q x) → filter P l = filter Q l.
Proof.
  induction l as [|x l IH]; [done|]. intros Hiff. rewrite !filter_cons.
  rewrite IH by (intros y Hy; apply Hiff; by right).
  destruct (decide (P x)) as [HP|HP], (decide (Q x)) as [HQ|HQ];
    try done; by apply (Hiff x) in HP || apply (Hiff x) in HQ; try by left.
Qed.

Lemma allContacts_fold_order (l : list Contact) (m : list (Z * Contact)) :
  NoDup (id <$> l) →
  (∀ c x, c ∈ l → x ∈ m → x.1 = id c → x.2 = c) →
  foldl (λ m c, map_set m (id c) c) m l
  = m ++ ((λ c, (id c, c)) <$> filter (λ c, id c ∉ m.*1) l).
Proof.
  revert m. induction l as [|c l IH]; intros m Hnd Hsame; csimpl.
  - by rewrite app_nil_r.
  - apply NoDup_cons in Hnd as [Hc Hnd]. rewrite filter_cons.
    destruct (decide (id c ∉ m.*1)) as [Hnew|Hold].
    + rewrite map_set_unknown by done. rewrite IH; [|done|].
      * rewrite <- app_assoc. csimpl. do 3 f_equal.
        apply filter_ext_in. intros c' Hc'.
        rewrite fmap_app, not_elem_of_app. csimpl.
        rewrite list_elem_of_singleton. split; [tauto|].
        intros Hm. split; [done|]. intros Heq. apply Hc. rewrite <- Heq.
        by apply list_elem_of_fmap_2.
      * intros c' x Hc' [Hx| ->%list_elem_of_singleton]%elem_of_app Hid.
        -- apply Hsame; [by right|done..].
        -- simpl in Hid. destruct Hc. rewrite Hid.
           by apply list_elem_of_fmap_2.
    + apply dec_stable in Hold.
      rewrite map_set_known; [|done|].
      * apply IH; [done|]. intros c' x Hc'. apply Hsame. by right.
      * intros x. apply Hsame. by left.
Qed.

Lemma values_of_keyed (l : list Contact) :
  snd <$> ((λ c, (id c, c)) <$> l) = l.
Proof. induction l as [|c l IH]; [done|]. csimpl. by rewrite IH. Qed.

Lemma keys_of_keyed (l : list Contact) :
  fst <$> ((λ c, (id c, c)) <$> l) = id <$> l.
Proof. induction l as [|c l IH]; [done|]. csimpl. by rewrite IH. Qed.

(** X10: the list [allContacts].  Putting the matched rows and the fetched
    primaries into the map keyed by id gives the matched rows, in the
    order of the lookup, followed by the fetched primaries that were not
    among them. *)
Theorem X10_matched_rows_come_first req d :
  NoDup (id <$> table d) →
  allContactsIn req d
  = existingContactsIn req d
    ++ filter (λ c, id c ∉ id <$> existingContactsIn req d)
         (primaryContactsFromDbIn req d).
Proof.
  intros Hnd.
  assert (∀ l : list Contact, l `sublist_of` table d → NoDup (id <$> l))
    as Hsub.
  { intros l Hl. eapply sublist_NoDup; [exact Hnd|]. by apply fmap_sublist. }
  assert (existingContactsIn req d `sublist_of` table d) as Hex.
  { unfold existingContactsIn. destruct (_ && _);
      [apply sublist_nil_l|apply sublist_filter]. }
  assert (primaryContactsFromDbIn req d `sublist_of` table d) as Hfetched.
  { unfold primaryContactsFromDbIn. cbv zeta. case_bool_decide;
      [apply sublist_filter|apply sublist_nil_l]. }
  unfold allContactsIn, allContactsOf, map_values. rewrite foldl_app.
  rewrite (allContacts_fold_order (existingContactsIn req d) [])
    by (auto; by intros ? ? _ ?%elem_of_nil).
  rewrite app_nil_l, filter_all by (intros c _; apply not_elem_of_nil).
  rewrite allContacts_fold_order.
  - rewrite fmap_app. by rewrite !values_of_keyed, keys_of_keyed.
  - auto.
  - intros c x Hc (c0 & -> & Hc0)%list_elem_of_fmap Hid. simpl in *.
    apply (id_inj_table (table d)); [done| | |done].
    + by eapply elem_of_sublist.
    + by eapply elem_of_sublist.
Qed.

Lemma X10_matched_rows_come_first_witness :
  allContactsIn alias_request two_clusters
  = existingContactsIn alias_request two_clusters
    ++ filter (λ c, id c ∉ id <$> existingContactsIn alias_request two_clusters)
         (primaryContactsFromDbIn alias_request two_clusters).
Proof.
  apply (X10_matched_rows_come_first alias_request two_clusters).
  apply two_clusters_primary_key.
Defined.

(** ** What no request does *)

Lemma evolves_refl c : evolves c c.
Proof. by unfold evolves. Qed.

Lemma evolves_trans c1 c2 c3 : evolves c1 c2 → evolves c2 c3 → evolves c1 c3.
Proof.
  unfold evolves. intros (? & ? & ? & ? & ? & ?) (? & ? & ? & ? & ? & ?).
  split_and!; try congruence. auto.
Qed.

Lemma grown_refl d : grown 0 d d.
Proof.
  exists (table d), []. rewrite app_nil_r. split_and!; [done| |done].
  apply Forall_Forall2_diag, Forall_forall. intros c _. apply evolves_refl.
Qed.

Lemma grown_mono n m d d' : (n ≤ m)%nat → grown n d d' → grown m d d'.
Proof.
  intros Hle (rows & added & ? & ? & ?). exists rows, added.
  split_and!; [done..|lia].
Qed.

(** A relation between two lists, row by row, is carried along a
    rearrangement of the first. *)
Lemma Forall2_rearranged {A B} (R : A → B → Prop) (l l' : list A)
    (k : list B) :
  l ≡ₚ l' → Forall2 R l k → ∃ k', k ≡ₚ k' ∧ Forall2 R l' k'.
Proof.
  intros Hperm. revert k.
  induction Hperm as [|x l l' _ IH|x y l|l l1 l2 _ IH1 _ IH2]; intros k Hk.
  - apply Forall2_nil_inv_l in Hk as ->. by exists [].
  - apply Forall2_cons_inv_l in Hk as (z & k0 & Hz & Hk0 & ->).
    destruct (IH k0 Hk0) as (k' & Hperm' & Hk').
    exists (z :: k'). split; [by constructor|by constructor].
  - apply Forall2_cons_inv_l in Hk as (z1 & k0 & Hz1 & Hk0 & ->).
    apply Forall2_cons_inv_l in Hk0 as (z2 & k1 & Hz2 & Hk1 & ->).
    exists (z2 :: z1 :: k1). split; [apply perm_swap|by repeat constructor].
  - destruct (IH1 k Hk) as (k1 & Hperm1 & Hk1).
    destruct (IH2 k1 Hk1) as (k2 & Hperm2 & Hk2).
    exists k2. split; [by etrans|done].
Qed.

Lemma grown_trans n m d d1 d2 :
  grown n d d1 → grown m d1 d2 → grown (n + m) d d2.
Proof.
  intros (rows1 & added1 & Ht1 & Hrows1 & Hlen1)
         (rows2 & added2 & Ht2 & Hrows2 & Hlen2).
  destruct (Forall2_rearranged _ _ _ _ Ht1 Hrows2) as (rows2' & Hperm & Hrows2').
  apply Forall2_app_inv_l in Hrows2' as (r21 & r22 & Hr21 & Hr22 & ->).
  exists r21, (r22 ++ added2).
  pose proof (Forall2_length _ _ _ Hr22) as Hlen.
  split_and!.
  - by rewrite Ht2, Hperm, <- app_assoc.
  - eapply Forall2_trans; [|exact Hrows1|exact Hr21].
    intros c1 c2 c3. apply evolves_trans.
  - rewrite length_app. lia.
Qed.

Lemma ensures_ret {A} (a : A) : ensures (grown 0) (mret a).
Proof. intros p. apply grown_refl. Qed.

Lemma ensures_mono {A} n m (c : Async A) :
  (n ≤ m)%nat → ensures (grown n) c → ensures (grown m) c.
Proof. intros Hle Hc p. by apply (grown_mono n). Qed.

Lemma ensures_bind {A B} n m (c : Async A) (k : A → Async B) :
  ensures (grown n) c → (∀ a, ensures (grown m) (k a)) →
  ensures (grown (n + m)) (c ≫= k).
Proof.
  intros Hc Hk p. unfold mbind, Async_bind. specialize (Hc p).
  destruct (c p) as [[e|a] p1]; simpl in *.
  - apply (grown_mono n); [lia|done].
  - by apply (grown_trans n m _ (db p1)), Hk.
Qed.

Lemma ensures_deref {A} (x : option A) : ensures (grown 0) (deref x).
Proof. intros p. destruct x; apply grown_refl. Qed.

Lemma ensures_pool_query {A} n (stmt : Db → A * Db) :
  (∀ d, grown n d (stmt d).2) → ensures (grown n) (pool_query stmt).
Proof.
  intros Hstmt [d o]. unfold pool_query. simpl.
  specialize (Hstmt d). destruct (stmt d) as [a d1].
  destruct o as [[|k]|]; simpl; [|done..].
  apply (grown_mono 0); [lia|apply grown_refl].
Qed.

Lemma grown_select where_ d : grown 0 d (select where_ d).2.
Proof. apply grown_refl. Qed.

Lemma grown_update set where_ d :
  (∀ now c, evolves c (set now c)) → grown 0 d (update set where_ d).2.
Proof.
  intros Hset. eexists _, []. rewrite app_nil_r.
  split_and!; [done| |done].
  unfold update. cbn [snd table].
  apply Forall2_fmap_r, Forall_Forall2_diag, Forall_forall. intros c _.
  simpl. destruct (where_ c); [apply Hset|apply evolves_refl].
Qed.

Lemma grown_insert e ph l prec d : grown 1 d (insert e ph l prec d).2.
Proof.
  unfold grown, insert. cbn [snd table].
  eexists (table d), [_]. split_and!; [reflexivity| |simpl; lia].
  apply Forall_Forall2_diag, Forall_forall. intros c _. apply evolves_refl.
Qed.

Lemma ensures_demoteLoop ultimatePrimary toDemote :
  ensures (grown 0) (demoteLoop ultimatePrimary toDemote).
Proof.
  induction toDemote as [|p rest IH]; [apply ensures_ret|].
  change (demoteLoop ultimatePrimary (p :: rest)) with
    (u ← deref ultimatePrimary;
     _ ← updateContact (id p) (Some (id u)) secondary;
     _ ← updateSecondaryLinks (id p) (id u);
     demoteLoop ultimatePrimary rest).
  apply (ensures_bind 0 0); [apply ensures_deref|]. intros u.
  apply (ensures_bind 0 0).
  { apply ensures_pool_query. intros d. apply grown_update.
    intros now c. by unfold evolves. }
  intros _. apply (ensures_bind 0 0); [|done].
  apply ensures_pool_query. intros d. apply grown_update.
  intros now c. by unfold evolves.
Qed.

Lemma ensures_identify req : ensures (grown 1) (identify req).
Proof.
  unfold identify. cbv zeta.
  apply (ensures_bind 0 1).
  { unfold findContactsByEmailOrPhone. destruct (_ && _);
      [apply ensures_ret|].
    apply ensures_pool_query, grown_select. }
  intros existingContacts. case_bool_decide.
  { apply (ensures_bind 1 0); [|intros; apply ensures_ret].
    apply ensures_pool_query. intros d. apply grown_insert. }
  apply (ensures_bind 0 1).
  { unfold fetchPrimaries. case_bool_decide; [|apply ensures_ret].
    apply ensures_pool_query, grown_select. }
  intros primaryContactsFromDb.
  apply (ensures_bind 0 1).
  { case_bool_decide; [apply ensures_demoteLoop|apply ensures_ret]. }
  intros _. apply (ensures_bind 1 0).
  { destruct (_ || _); [|apply (ensures_mono 0); [lia|apply ensures_ret]].
    apply (ensures_bind 0 1); [apply ensures_deref|]. intros u.
    apply (ensures_bind 1 0); [|intros; apply ensures_ret].
    apply ensures_pool_query. intros d. apply grown_insert. }
  intros _. apply (ensures_bind 0 0); [apply ensures_deref|]. intros u.
  apply (ensures_bind 0 0).
  { apply ensures_pool_query, grown_select. }
  intros finalContacts p. apply grown_refl.
Qed.

(** X11: what no request does, whether it is answered or fails, and
    whichever statement the pool rejects.  The rows that were in the table
    are still there, each with its [id], [email], [phonenumber],
    [createdat] and [deletedat]; no secondary has become a primary; at
    most one row was added. *)
Theorem X11_requests_only_link_and_append req p :
  grown 1 (db p) (db (handler req p).2).
Proof.
  unfold handler. pose proof (ensures_identify req p) as H.
  by destruct (identify req p) as [[e|c] p'].
Qed.

(** ** The data model after a request *)

Lemma live_primaries_append_primary e ph d :
  live_primaries d →
  live_primaries (insert e ph None primary d).2.
Proof.
  intros Hlive c p. unfold insert. cbn [snd table].
  intros [Hc| ->%list_elem_of_singleton]%elem_of_app
         [Hp| ->%list_elem_of_singleton]%elem_of_app; try done.
  by apply Hlive.
Qed.

Lemma live_primaries_found_primary req d u losers :
  allPrimaryContactsIn req d = u :: losers →
  primary_key d → live_primaries d →
  live_primaries (apply_writes (planWrites req d (id u) losers) d).
Proof.
  intros Hprim (Hnd & _ & _) Hlive.
  destruct (ultimate_in_table req d u losers Hprim) as (Hu & Hulive & _).
  destruct (planWrites_table req d (id u) losers)
    as (rows & now & Hrows & Htable & _).
  assert (∀ p', p' ∈ table (apply_writes (planWrites req d (id u) losers) d) →
            id p' = id u → deletedat p' = None) as Htarget.
  { intros p'. rewrite Htable. intros [Hp'|Hp']%elem_of_app Hid.
    - destruct (Forall2_elem_of_r _ _ _ _ Hrows Hp')
        as (p0 & Hp0 & Hidp & _ & _ & _ & Hdel & _).
      rewrite Hdel.
      by rewrite (id_inj_table (table d) p0 u Hnd Hp0 Hu) by congruence.
    - destruct (isNewEmailIn req d || isNewPhoneIn req d);
        [|by apply elem_of_nil in Hp'].
      by apply list_elem_of_singleton in Hp' as ->. }
  intros c' p' Hc' Hp' Hclive Hlink.
  pose proof Hp' as Hp'in.
  rewrite Htable in Hc', Hp'. apply elem_of_app in Hc' as [Hc'|Hc'].
  - destruct (Forall2_elem_of_r _ _ _ _ Hrows Hc')
      as (c & Hc & _ & _ & _ & _ & Hdelc & Hrel).
    destruct (decide (id c ∈ id <$> losers)).
    { apply Htarget; [done|]. destruct Hrel. congruence. }
    destruct Hrel as [_ Hl].
    destruct (linkedid c) as [l|] eqn:Hlc; [|congruence].
    destruct (decide (l ∈ id <$> losers)).
    { apply Htarget; [done|]. congruence. }
    apply elem_of_app in Hp' as [Hp'|Hp'].
    + destruct (Forall2_elem_of_r _ _ _ _ Hrows Hp')
        as (p0 & Hp0 & Hidp & _ & _ & _ & Hdelp & _).
      rewrite Hdelp. apply (Hlive c p0); [done..|congruence|congruence].
    + destruct (isNewEmailIn req d || isNewPhoneIn req d);
        [|by apply elem_of_nil in Hp'].
      by apply list_elem_of_singleton in Hp' as ->.
  - destruct (isNewEmailIn req d || isNewPhoneIn req d);
      [|by apply elem_of_nil in Hc'].
    apply list_elem_of_singleton in Hc' as ->. simpl in Hlink.
    apply Htarget; [done|congruence].
Qed.

(** The three ways a request ends under a pool that never fails. *)
Lemma handler_outcome req d :
  primaries_unlinked d →
  (existingContactsIn req d = []
   ∧ handler req (connected d)
     = (Json200 (mkConsolidated (serial d + 1)
                   (omap (λ e, if truthy e then e else None) [req_email req])
                   (omap (λ p, if truthy p then p else None)
                      [req_phonenumber req])
                   []),
        connected (insert (req_email req) (req_phonenumber req) None primary d).2))
  ∨ (existingContactsIn req d ≠ [] ∧ allPrimaryContactsIn req d = []
     ∧ handler req (connected d) = (Error500, connected d))
  ∨ (∃ u losers resp,
       existingContactsIn req d ≠ []
       ∧ allPrimaryContactsIn req d = u :: losers
       ∧ handler req (connected d)
         = (Json200 resp,
            connected (apply_writes (planWrites req d (id u) losers) d))
       ∧ buildResponse
           (clusterMembers (id u)
              (apply_writes (planWrites req d (id u) losers) d)) = inr resp
       ∧ primaryContactId resp = id u
       ∧ emails resp
         = getAllEmails
             (clusterMembers (id u)
                (apply_writes (planWrites req d (id u) losers) d))
       ∧ phoneNumbers resp
         = getAllPhones
             (clusterMembers (id u)
                (apply_writes (planWrites req d (id u) losers) d))
       ∧ secondaryContactIds resp
         = id <$> filter (λ c, is_secondary c)
                    (clusterMembers (id u)
                       (apply_writes (planWrites req d (id u) losers) d))).
Proof.
  intros Hunl.
  destruct (existingContactsIn req d) as [|c0 ex] eqn:Hex.
  - left. split; [done|]. unfold handler.
    by rewrite identify_connected, Hex.
  - right.
    destruct (allPrimaryContactsIn req d) as [|u losers] eqn:Hprim.
    + left. split_and!; [done..|]. unfold handler.
      by rewrite identify_connected, Hex, Hprim.
    + right.
      destruct (response_found_primary req d u losers Hprim Hunl)
        as (resp & Hresp & Hid & He & Hp & Hs).
      exists u, losers, resp. split_and!; [done..| |done|done|done|done|done].
      by rewrite (handler_found_primary req d u losers Hprim), Hresp.
Qed.

(** X12: a request served by a pool that never fails keeps the constraints
    of the schema (unique positive ids below the sequence value, every
    [linkedid] the id of a row) and the invariants of the data model: no
    [linkedid] on a primary, one on every secondary, none that refers to a
    secondary.  Where no live row was linked to a soft-deleted one, none is
    afterwards. *)
Theorem X12_requests_keep_the_data_model req d :
  store_ok d →
  store_ok (db (handler req (connected d)).2)
  ∧ (live_primaries d → live_primaries (db (handler req (connected d)).2)).
Proof.
  intros Hok. split; [by apply handler_keeps_store_ok|].
  intros Hlive. pose proof Hok as (Hpk & _ & _ & Hunl & _).
  destruct (handler_outcome req d Hunl)
    as [[_ ->]|[(_ & _ & ->)|(u & losers & resp & _ & Hprim & -> & _)]].
  - by apply live_primaries_append_primary.
  - done.
  - by apply live_primaries_found_primary.
Qed.

Lemma X12_requests_keep_the_data_model_witness :
  store_ok (db (handler link_request (connected two_clusters)).2)
  ∧ (live_primaries two_clusters →
     live_primaries (db (handler link_request (connected two_clusters)).2)).
Proof.
  apply (X12_requests_keep_the_data_model link_request two_clusters).
  exact two_clusters_ok.
Defined.

(** X13: where the data model holds and no live row is linked to a
    soft-deleted one, a request whose values fit their columns, served by
    a pool that rejects no statement while the sequence has a next value,
    is answered with a consolidated contact, never with an error. *)
Theorem X13_request_is_answered req d :
  store_ok d → live_primaries d →
  fits_columns (req_email req) (req_phonenumber req) →
  serial d < int4_max →
  ∃ resp, (handler req (connected d)).1 = Json200 resp.
Proof.
  intros Hok Hlive _ _. pose proof Hok as (_ & _ & _ & Hunl & _).
  destruct (handler_outcome req d Hunl)
    as [[_ ->]|[(Hex & Hnone & _)|(u & losers & resp & _ & _ & -> & _)]].
  - by eexists.
  - destruct (ultimate_primary_defined req d Hok Hlive Hex) as [u Hu].
    by rewrite Hnone in Hu.
  - by eexists.
Qed.

Lemma X13_request_is_answered_witness :
  ∃ resp, (handler alias_request (connected two_clusters)).1 = Json200 resp.
Proof.
  apply (X13_request_is_answered alias_request two_clusters).
  - exact two_clusters_ok.
  - exact two_clusters_live.
  - fits_columns_ok.
  - by vm_compute.
Defined.

(** ** The answer and the stored cluster *)

Lemma matched_in_cluster req d u c :
  store_ok d → live_primaries d → fully_matches req d u →
  c ∈ existingContactsIn req d → c ∈ clusterMembers (id u) d.
Proof.
  intros (_ & Hfk & Hchain & _ & Hlinked) Hlive (_ & Hone & _) Hc.
  destruct (elem_of_existingContactsIn _ _ _ Hc) as (Hin & Hclive & _).
  apply elem_of_clusterMembers. split_and!; [done..|].
  destruct (linkprecedence c) eqn:Hprec.
  - left. f_equal. apply Hone. split_and!; [done..|]. exists c. auto.
  - right. destruct (Hlinked c Hin Hprec) as (l & Hl & _).
    destruct (Hfk c l Hin Hl) as (p & Hp & <-).
    rewrite Hl. do 2 f_equal. apply Hone.
    split_and!; [done|by apply (Hlive c p)|by apply (Hchain c p)|].
    exists c. auto.
Qed.

Lemma handler_settles req d resp p' :
  store_ok d →
  (truthy (req_email req) || truthy (req_phonenumber req)) = true →
  handler req (connected d) = (Json200 resp, p') →
  ∃ u, id u = primaryContactId resp ∧ fully_matches req (db p') u.
Proof.
  intros Hok Htruthy Hrun. pose proof Hok as (_ & _ & _ & Hunl & _).
  destruct (handler_outcome req d Hunl)
    as [[Hex Hrun']|[(_ & _ & Hrun')
                    |(u & losers & r & _ & Hprim & Hrun' & _ & Hid & _)]];
    rewrite Hrun' in Hrun.
  - injection Hrun as <- <-.
    exists (insert (req_email req) (req_phonenumber req) None primary d).1.
    split; [done|]. by apply after_no_match.
  - done.
  - injection Hrun as <- <-.
    destruct (after_found_primary req d u losers Hok Hprim) as (u' & Hu' & Hfull).
    exists u'. split; [congruence|done].
Qed.

Lemma carrier_is_found req d c :
  c ∈ table d → deletedat c = None →
  (truthy (req_email req) = true ∧ email c = req_email req)
  ∨ (truthy (req_phonenumber req) = true
     ∧ phonenumber c = req_phonenumber req) →
  (truthy (req_email req) || truthy (req_phonenumber req)) = true
  ∧ c ∈ existingContactsIn req d.
Proof.
  intros Hc Hlive Hcarries.
  assert ((truthy (req_email req) || truthy (req_phonenumber req)) = true)
    as Htruthy.
  { destruct Hcarries as [[-> _]|[-> _]]; [done|by rewrite orb_true_r]. }
  split; [done|].
  apply elem_of_existingContactsIn_iff. split_and!; [done..|].
  destruct Hcarries as [[Ht ->]|[Ht ->]]; rewrite (sql_eq_refl_truthy _ Ht);
    [done|by rewrite orb_true_r].
Qed.

(** X14: after a request that was answered, every live row that holds the
    submitted email or the submitted phone number is a member of the
    cluster the answer names: the two values no longer lead to different
    primaries. *)
Theorem X14_carriers_end_in_the_answered_cluster req d resp p' c :
  store_ok d → live_primaries d →
  handler req (connected d) = (Json200 resp, p') →
  c ∈ table (db p') → deletedat c = None →
  (truthy (req_email req) = true ∧ email c = req_email req)
  ∨ (truthy (req_phonenumber req) = true
     ∧ phonenumber c = req_phonenumber req) →
  c ∈ clusterMembers (primaryContactId resp) (db p').
Proof.
  intros Hok Hlive Hrun Hc Hclive Hcarries.
  destruct (carrier_is_found req (db p') c Hc Hclive Hcarries) as [Htruthy Hex].
  destruct (handler_settles req d resp p' Hok Htruthy Hrun) as (u & <- & Hfull).
  pose proof (handler_keeps_store_ok req d Hok) as Hok'.
  pose proof Hok as (Hpk & _ & _ & Hunl & _).
  assert (live_primaries (db (handler req (connected d)).2)) as Hlive'.
  { destruct (handler_outcome req d Hunl)
      as [[_ ->]|[(_ & _ & ->)|(u0 & losers & r & _ & Hprim & -> & _)]].
    - by apply live_primaries_append_primary.
    - done.
    - by apply live_primaries_found_primary. }
  rewrite Hrun in Hok', Hlive'. by apply (matched_in_cluster req).
Qed.

Lemma X14_carriers_end_in_the_answered_cluster_witness :
  mkContact 2 (Some "222"%string) None (Some 1) secondary 1001 1003 None
  ∈ clusterMembers 1 (db (handler link_request (connected two_clusters)).2).
Proof.
  apply (X14_carriers_end_in_the_answered_cluster link_request two_clusters
           (mkConsolidated 1 ["a@x.com"%string; "m@x.com"%string]
              ["222"%string] [2; 3])
           (handler link_request (connected two_clusters)).2).
  - exact two_clusters_ok.
  - exact two_clusters_live.
  - reflexivity.
  - apply (bool_decide_unpack _). by vm_compute.
  - reflexivity.
  - right. split; reflexivity.
Defined.



(** X16: what a successful answer says about the table it leaves.  The
    [primaryContactId] is the id of a live primary row;
    [secondaryContactIds] are the ids of the live rows linked to it, no more
    and no fewer, each once and never the primary's; [emails] and
    [phoneNumbers] hold no value twice, and every value they list is held
    by a live member of that cluster. *)
Theorem X16_answer_describes_the_cluster req d resp p' :
  store_ok d →
  handler req (connected d) = (Json200 resp, p') →
  (∃ u, u ∈ table (db p') ∧ id u = primaryContactId resp
        ∧ linkprecedence u = primary ∧ deletedat u = None)
  ∧ (∀ i, i ∈ secondaryContactIds resp
          ↔ ∃ c, c ∈ table (db p') ∧ id c = i ∧ deletedat c = None
                 ∧ linkedid c = Some (primaryContactId resp))
  ∧ (primaryContactId resp ∉ secondaryContactIds resp)
  ∧ NoDup (secondaryContactIds resp)
  ∧ NoDup (emails resp) ∧ NoDup (phoneNumbers resp)
  ∧ (∀ e, e ∈ emails resp →
       ∃ c, c ∈ clusterMembers (primaryContactId resp) (db p')
            ∧ email c = Some e)
  ∧ (∀ ph, ph ∈ phoneNumbers resp →
       ∃ c, c ∈ clusterMembers (primaryContactId resp) (db p')
            ∧ phonenumber c = Some ph).
Proof.
  intros Hok Hrun. pose proof Hok as (Hpk & Hfk & _ & Hunl & _).
  destruct (handler_outcome req d Hunl)
    as [[Hex Hrun']|[(_ & _ & Hrun')
          |(u & losers & r & _ & Hprim & Hrun' & _ & Hid & He & Hp & Hs)]];
    rewrite Hrun' in Hrun; [|done|]; injection Hrun as <- <-.
  - (* a new primary *)
    destruct Hpk as (_ & _ & Hserial).
    set (row := mkContact (serial d + 1) (req_phonenumber req) (req_email req)
                  None primary (clock d) (clock d) None).
    assert (row ∈ clusterMembers (serial d + 1)
                    (insert (req_email req) (req_phonenumber req) None
                       primary d).2) as Hrow.
    { apply elem_of_clusterMembers. split_and!; [|done|by left].
      apply elem_of_app. right. by left. }
    cbv [db primaryContactId secondaryContactIds emails phoneNumbers].
    split_and!.
    + exists row. split_and!; [|done..]. apply elem_of_app. right. by left.
    + intros i. split; [by intros ?%elem_of_nil|].
      intros (c & Hc & _ & _ & Hl). exfalso.
      apply elem_of_app in Hc as [Hc|Hc%list_elem_of_singleton];
        [|by rewrite Hc in Hl].
      destruct (Hfk c _ Hc Hl) as (q & Hq & Hidq).
      specialize (Hserial q Hq). lia.
    + by intros ?%elem_of_nil.
    + apply NoDup_nil_2.
    + destruct (if truthy (req_email req) then _ else _);
        [apply NoDup_singleton|apply NoDup_nil_2].
    + destruct (if truthy (req_phonenumber req) then _ else _);
        [apply NoDup_singleton|apply NoDup_nil_2].
    + intros e He. exists row. split; [done|]. simpl.
      destruct (truthy (req_email req)), (req_email req);
        try (by apply elem_of_nil in He).
      by apply list_elem_of_singleton in He as ->.
    + intros ph Hph. exists row. split; [done|]. simpl.
      destruct (truthy (req_phonenumber req)), (req_phonenumber req);
        try (by apply elem_of_nil in Hph).
      by apply list_elem_of_singleton in Hph as ->.
  - (* the cluster of the ultimate primary *)
    pose proof (store_ok_found_primary req d u losers Hprim Hok)
      as ((Hnd1 & _) & _ & _ & Hunl1 & _).
    destruct (ultimate_survives req d u losers Hprim)
      as (u' & Hu' & Hidu & Hprec).
    set (d1 := apply_writes (planWrites req d (id u) losers) d) in *.
    cbn [db]. rewrite Hid, Hs, He, Hp.
    pose proof Hu' as (Hu'in & Hu'live & _)%elem_of_clusterMembers.
    assert (∀ i, i ∈ id <$> filter (λ c, is_secondary c)
                              (clusterMembers (id u) d1)
              ↔ ∃ c, c ∈ table d1 ∧ id c = i ∧ deletedat c = None
                     ∧ linkedid c = Some (id u)) as Hsec.
    { intros i. rewrite list_elem_of_fmap. split.
      - intros (c & -> & [Hcs Hc]%list_elem_of_filter).
        apply elem_of_clusterMembers in Hc as (Hc & Hclive & Hcu).
        exists c. split_and!; [done..|].
        destruct Hcu as [Hcu|?]; [|done]. exfalso.
        rewrite (id_inj_table (table d1) c u' Hnd1 Hc Hu'in) in Hcs
          by congruence.
        unfold is_secondary in Hcs.
        rewrite Is_true_true, bool_decide_eq_true in Hcs. congruence.
      - intros (c & Hc & <- & Hclive & Hl). exists c. split; [done|].
        apply list_elem_of_filter. split.
        + unfold is_secondary. rewrite Is_true_true, bool_decide_eq_true.
          destruct (linkprecedence c) eqn:Hpc; [|done].
          rewrite (Hunl1 c Hc Hpc) in Hl. done.
        + apply elem_of_clusterMembers. auto. }
    split_and!.
    + exists u'. split_and!; done.
    + exact Hsec.
    + intros (c & Hc & Hidc & _ & Hl)%Hsec.
      rewrite (id_inj_table (table d1) c u' Hnd1 Hc Hu'in) in Hl by congruence.
      rewrite (Hunl1 u' Hu'in Hprec) in Hl. done.
    + eapply sublist_NoDup; [exact Hnd1|].
      apply fmap_sublist. etrans; [apply sublist_filter|].
      apply sublist_filter.
    + apply NoDup_set_spread.
    + apply NoDup_set_spread.
    + intros e (c & Hc & Hemail)%elem_of_set_spread%list_elem_of_omap.
      by exists c.
    + intros ph (c & Hc & Hphone)%elem_of_set_spread%list_elem_of_omap.
      by exists c.
Qed.

Lemma X16_answer_describes_the_cluster_witness :
  let resp := mkConsolidated 1 ["a@x.com"%string; "m@x.com"%string]
                ["222"%string] [2; 3] in
  let p' := (handler link_request (connected two_clusters)).2 in
  (∃ u, u ∈ table (db p') ∧ id u = primaryContactId resp
        ∧ linkprecedence u = primary ∧ deletedat u = None)
  ∧ (∀ i, i ∈ secondaryContactIds resp
          ↔ ∃ c, c ∈ table (db p') ∧ id c = i ∧ deletedat c = None
                 ∧ linkedid c = Some (primaryContactId resp))
  ∧ (primaryContactId resp ∉ secondaryContactIds resp)
  ∧ NoDup (secondaryContactIds resp)
  ∧ NoDup (emails resp) ∧ NoDup (phoneNumbers resp)
  ∧ (∀ e, e ∈ emails resp →
       ∃ c, c ∈ clusterMembers (primaryContactId resp) (db p')
            ∧ email c = Some e)
  ∧ (∀ ph, ph ∈ phoneNumbers resp →
       ∃ c, c ∈ clusterMembers (primaryContactId resp) (db p')
            ∧ phonenumber c = Some ph).
Proof.
  apply (X16_answer_describes_the_cluster link_request two_clusters).
  - exact two_clusters_ok.
  - reflexivity.
Defined.

(** ** A contact nobody knows *)

(** X17: when no live row holds the submitted email or the submitted phone
    number and the table accepts the new row, the request adds one row, a
    primary without [linkedid] that carries both submitted fields as they
    came, takes the next id of the sequence and the current time for both
    timestamps, leaves every other row as it was, and is answered with
    the new id, the non-empty submitted values and no secondary. *)
Theorem X17_unknown_contact_becomes_a_primary req d :
  (∀ c, c ∈ table d → deletedat c = None →
     (req_email req = None ∨ email c ≠ req_email req)
     ∧ (req_phonenumber req = None
        ∨ phonenumber c ≠ req_phonenumber req)) →
  accepted (req_email req) (req_phonenumber req) None d →
  ∃ d',
    handler req (connected d)
    = (Json200
         (mkConsolidated (serial d + 1)
            (if truthy (req_email req)
             then [default EmptyString (req_email req)] else [])
            (if truthy (req_phonenumber req)
             then [default EmptyString (req_phonenumber req)] else [])
            []),
       connected d')
    ∧ table d'
      ≡ₚ table d
         ++ [mkContact (serial d + 1) (req_phonenumber req) (req_email req)
               None primary (clock d) (clock d) None].
Proof.
  intros Hnone _.
  assert (existingContactsIn req d = []) as Hex.
  { unfold existingContactsIn. destruct (_ && _); [done|].
    apply filter_none. intros c Hc. unfold matchesEmailOrPhone.
    destruct (deletedat c) eqn:Hdel; [by rewrite andb_false_r|].
    destruct (Hnone c Hc Hdel) as [He Hp].
    assert (sql_eq (email c) (req_email req) = false) as ->.
    { destruct He as [->|He]; [by destruct (email c)|].
      destruct (email c), (req_email req); try done. simpl.
      apply bool_decide_eq_false. congruence. }
    assert (sql_eq (phonenumber c) (req_phonenumber req) = false) as ->.
    { destruct Hp as [->|Hp]; [by destruct (phonenumber c)|].
      destruct (phonenumber c), (req_phonenumber req); try done. simpl.
      apply bool_decide_eq_false. congruence. }
    done. }
  exists (insert (req_email req) (req_phonenumber req) None primary d).2.
  split; [|reflexivity].
  unfold handler. rewrite identify_connected, Hex. simpl.
  do 3 f_equal.
  - destruct (req_email req) as [e|]; [|done]. simpl.
    by destruct (bool_decide (e = EmptyString)).
  - destruct (req_phonenumber req) as [ph|]; [|done]. simpl.
    by destruct (bool_decide (ph = EmptyString)).
Qed.

Lemma X17_unknown_contact_becomes_a_primary_witness :
  ∃ d',
    handler (mkRequest (Some "z@x.com"%string) None) (connected two_clusters)
    = (Json200 (mkConsolidated 4 ["z@x.com"%string] [] []), connected d')
    ∧ table d'
      ≡ₚ table two_clusters
         ++ [mkContact 4 None (Some "z@x.com"%string) None primary
               1003 1003 None].
Proof.
  apply (X17_unknown_contact_becomes_a_primary
           (mkRequest (Some "z@x.com"%string) None) two_clusters).
  - intros c Hc _. split; [right|by left]. each_row Hc; done.
  - split_and!.
    + fits_columns_ok.
    + by vm_compute.
    + intros c Hc. each_row Hc; done.
    + by intros l [=].
Defined.

(** ** A pool that is down *)

(** X18: when the pool rejects the first statement, every request is
    answered with the server error and the table is left as it was. *)
Theorem X18_pool_down_answers_500 req d :
  handler req (mkPool d (Some 0%nat)) = (Error500, mkPool d (Some 0%nat)).
Proof.
  unfold handler, identify. cbv zeta.
  unfold findContactsByEmailOrPhone.
  destruct (negb (truthy (req_email req)) && negb (truthy (req_phonenumber req))).
  - erewrite bind_inr by reflexivity.
    rewrite bool_decide_true by done.
    by erewrite bind_inl by apply pool_query_down.
  - by erewrite bind_inl by apply pool_query_down.
Qed.

(** ** The older copy: a match is an error *)

Lemma Legacy_sees_no_primary (l : list Contact) :
  filter (λ c, Legacy.is_primary c) l = [].
Proof.
  induction l as [|c l IH]; [done|].
  rewrite filter_cons_False; [done|]. by intros [].
Qed.

(** X19: the older copy of the handler looks for the primaries among the
    matched rows by reading [c.linkPrecedence], a property that the rows
    do not have.  It finds none, its ultimate primary is undefined, and
    every request that matches a contact is answered with the server
    error and writes nothing, whatever the pool does. *)
Theorem X19_older_copy_fails_on_every_match req d o :
  existingContactsIn req d ≠ [] →
  (Legacy.handler req (mkPool d o)).1 = Legacy.Error500
  ∧ db (Legacy.handler req (mkPool d o)).2 = d.
Proof.
  intros Hex.
  assert (∃ e o', Legacy.identify req (mkPool d o) = (inl e, mkPool d o'))
    as (e & o' & Hrun).
  { unfold Legacy.identify. cbv zeta.
    destruct (decide (o = Some 0%nat)) as [->|Ho].
    - unfold findContactsByEmailOrPhone. unfold existingContactsIn in Hex.
      destruct (negb (truthy (req_email req))
                && negb (truthy (req_phonenumber req))); [done|].
      eexists _, _. by erewrite bind_inl by apply pool_query_down.
    - erewrite bind_inr by (by apply find_run).
      rewrite bool_decide_false by (by destruct (existingContactsIn req d)).
      unfold Legacy.getAllLinkedContacts. cbv zeta.
      rewrite Legacy_sees_no_primary.
      rewrite (bool_decide_true (length _ = 0%nat)) by done.
      erewrite bind_inr by reflexivity.
      simpl sort_by_createdat. simpl head. simpl tail. simpl length.
      rewrite (bool_decide_false (1 < 0)%nat) by lia.
      erewrite bind_inr by reflexivity.
      eexists _, _.
      destruct (isNew _ _ || Legacy.isNewPhone _ _).
      + erewrite bind_inl; [done|]. by erewrite bind_inl.
      + erewrite bind_inr by reflexivity. by erewrite bind_inl. }
  unfold Legacy.handler. by rewrite Hrun.
Qed.

Lemma X19_older_copy_fails_on_every_match_witness :
  (Legacy.handler link_request (connected two_clusters)).1 = Legacy.Error500
  ∧ db (Legacy.handler link_request (connected two_clusters)).2
    = two_clusters.
Proof.
  apply (X19_older_copy_fails_on_every_match link_request two_clusters None).
  by vm_compute.
Defined.

(** ** The older copy: the final lookup *)

(** X20: the final lookup of the older copy, whose [WHERE] lacks the
    parentheses, and the one of [src/index.ts] return the same rows exactly
    when no row with the requested id is soft-deleted: the older copy
    returns the row of that id also when it is deleted. *)
Theorem X20_older_lookup_returns_the_deleted_primary primaryId d :
  Legacy.getAllContactsLinkedToPrimary primaryId (connected d)
  = getAllContactsLinkedToPrimary primaryId (connected d)
  ↔ ∀ c, c ∈ table d → id c = primaryId → deletedat c = None.
Proof.
  unfold Legacy.getAllContactsLinkedToPrimary, getAllContactsLinkedToPrimary.
  unfold connected. rewrite !pool_query_ok by done.
  unfold select. cbn [fst snd]. split.
  - intros [= Heq] c Hc Hid.
    assert (c ∈ filter (λ c, Legacy.linkedToPrimary primaryId c) (table d))
      as Hin.
    { apply list_elem_of_filter. split; [|done]. unfold Legacy.linkedToPrimary.
      by rewrite bool_decide_true. }
    rewrite Heq in Hin. apply list_elem_of_filter in Hin as [Hin _].
    unfold linkedToPrimary in Hin.
    apply Is_true_true, andb_true_iff in Hin as [_ Hin].
    by apply is_null_None.
  - intros Hlive. do 2 f_equal. apply filter_ext_in. intros c Hc.
    unfold Legacy.linkedToPrimary, linkedToPrimary. rewrite !Is_true_true.
    destruct (decide (id c = primaryId)) as [Hid|Hid].
    + rewrite (Hlive c Hc Hid), bool_decide_true by done. simpl. done.
    + rewrite bool_decide_false by done. done.
Qed.

(** ** Repeating a request *)


